(** * Document processing utilities: the C++ and the C sample programs

    Shallow embedding of
    - [src/backend/scripts/chunking/files/test-cpp.cpp] (namespace
      [knowledge]: [Document], [TextParser], [TextChunker]) and
    - [src/backend/scripts/chunking/files/test-c.c] ([document_create],
      [chunk_text]),
    followed by the properties of the specification that concern them. *)

From Stdlib Require Import ZArith List Bool Ascii String Lia Arith.
From Equations Require Import Equations.
Import ListNotations.

Local Open Scope string_scope.
Local Open Scope Z_scope.

(** ** Machine integers

    [int] is a 32-bit signed integer and [size_t] a 64-bit unsigned one.
    Values are carried in [Z]; conversions write the wrap-around out. *)

Module Machine.

Definition SIZE_MODULUS : Z := 2 ^ 64.
Definition INT_MIN : Z := - 2 ^ 31.
Definition INT_MAX : Z := 2 ^ 31 - 1.

(** Conversion of any integer value to [size_t]: reduction modulo 2^64.
    This is what the usual arithmetic conversions do to an [int] operand
    that meets a [size_t] operand. *)
Definition to_size_t (z : Z) : Z := z mod SIZE_MODULUS.

(** Conversion of any integer value to [int] (modulo 2^32, two's
    complement). *)
Definition to_int (z : Z) : Z := (z - INT_MIN) mod 2 ^ 32 + INT_MIN.

(** [a + b] on two [size_t] operands. *)
Definition size_add (a b : Z) : Z := to_size_t (a + b).

End Machine.

(** ** Strings *)

(** [s.length()] / [strlen(s)] as a [size_t] value. *)
Definition size (s : string) : Z := Z.of_nat (String.length s).

(** [s.empty()] *)
Definition empty (s : string) : bool :=
  match s with
  | EmptyString => true
  | String _ _ => false
  end.

(** The first [n] characters of [s] (all of [s] when it is shorter), and
    what remains after them. *)
Fixpoint take (n : nat) (s : string) : string :=
  match n, s with
  | S n', String c s' => String c (take n' s')
  | _, _ => EmptyString
  end.

Fixpoint drop (n : nat) (s : string) : string :=
  match n, s with
  | S n', String _ s' => drop n' s'
  | _, _ => s
  end.

(** A value together with the fact that it is the value of the expression
    it comes from: what the loops below match on, so that their termination
    proofs know which branch they are in. *)
Definition inspect {A} (a : A) : {b : A | a = b} := exist _ a eq_refl.

(** ** Errors raised by the C++ program *)

Inductive exception : Type :=
| invalid_argument (what : string).

Inductive result (A : Type) : Type :=
| Ok (a : A)
| Throw (e : exception).
Arguments Ok {A} a.
Arguments Throw {A} e.

(** ** [std::istringstream]

    A string stream is modelled by the characters that are still to be read.
    The two failure situations of an extraction, "the stream is already at
    end of file" and "end of file is met before a character is extracted",
    both arise exactly when no character is left, so the remaining characters
    are the whole state that the loops of the program observe. *)

Module Stream.

Definition istringstream : Type := string.

(** Characters up to the first [delim] (or the end), and what follows
    the delimiter. The delimiter is extracted and dropped. *)
Fixpoint read_until (delim : ascii) (s : string) : string * istringstream :=
  match s with
  | EmptyString => (EmptyString, EmptyString)
  | String c s' =>
      if Ascii.eqb c delim then (EmptyString, s')
      else let (line, rest) := read_until delim s' in (String c line, rest)
  end.

(** [std::getline(stream, line, delim)]: [None] when the extraction fails
    (the loop condition converts to [false]), otherwise the line read and
    the stream after it. *)
Definition getline (stream : istringstream) (delim : ascii)
  : option (string * istringstream) :=
  match stream with
  | EmptyString => None
  | String _ _ => Some (read_until delim stream)
  end.

(** [std::isspace] in the classic locale, which is the one
    [operator>>] consults to skip and to stop at white space. *)
Definition isspace (c : ascii) : bool :=
  let n := N_of_ascii c in
  (N.eqb n 32 || (N.leb 9 n && N.leb n 13))%bool.

Fixpoint skipws (s : istringstream) : istringstream :=
  match s with
  | EmptyString => EmptyString
  | String c s' => if isspace c then skipws s' else s
  end.

Fixpoint read_word (s : istringstream) : string * istringstream :=
  match s with
  | EmptyString => (EmptyString, EmptyString)
  | String c s' =>
      if isspace c then (EmptyString, s)
      else let (w, rest) := read_word s' in (String c w, rest)
  end.

(** [stream >> word]: skip leading white space, then read up to the next
    white space; fails when no character could be stored. *)
Definition extract (stream : istringstream) : option (string * istringstream) :=
  match skipws stream with
  | EmptyString => None
  | String _ _ as s => Some (read_word s)
  end.

Lemma read_until_length delim s :
  (String.length (snd (read_until delim s)) <= String.length s)%nat.
Proof.
  induction s as [|c s IH]; simpl; [lia|].
  destruct (Ascii.eqb c delim); simpl; [lia|].
  destruct (read_until delim s); simpl in *; lia.
Qed.

Lemma getline_shorter stream delim line rest :
  getline stream delim = Some (line, rest) ->
  (String.length rest < String.length stream)%nat.
Proof.
  destruct stream as [|c s]; simpl; [discriminate|].
  intros H. injection H as H.
  pose proof (read_until_length delim s) as Hl.
  destruct (Ascii.eqb c delim).
  - injection H as _ <-. lia.
  - destruct (read_until delim s) as [l r]. injection H as _ <-.
    simpl in Hl. lia.
Qed.

Lemma skipws_length s : (String.length (skipws s) <= String.length s)%nat.
Proof.
  induction s as [|c s IH]; simpl; [lia|].
  destruct (isspace c); simpl; lia.
Qed.

Lemma read_word_length s :
  (String.length (snd (read_word s)) <= String.length s)%nat.
Proof.
  induction s as [|c s IH]; simpl; [lia|].
  destruct (isspace c); simpl; [lia|].
  destruct (read_word s); simpl in *; lia.
Qed.

Lemma skipws_head c s' s : skipws s = String c s' -> isspace c = false.
Proof.
  induction s as [|d s IH]; simpl; [discriminate|].
  destruct (isspace d) eqn:E; [exact IH|].
  intros H. injection H as -> _. exact E.
Qed.

Lemma extract_shorter stream word rest :
  extract stream = Some (word, rest) ->
  (String.length rest < String.length stream)%nat.
Proof.
  unfold extract. pose proof (skipws_length stream) as Hs.
  destruct (skipws stream) as [|c s] eqn:E; [discriminate|].
  intros H. injection H as H.
  pose proof (skipws_head _ _ _ E) as Hc.
  simpl in H. rewrite Hc in H.
  pose proof (read_word_length s) as Hw.
  destruct (read_word s) as [w r]. injection H as _ <-.
  simpl in *. lia.
Qed.

End Stream.

(** ** The C++ program, namespace [knowledge] *)

Module knowledge.

Import Stream.

(** *** class Document *)

Record Document : Type :=
  { content_ : string; source_ : string; wordCount_ : Z }.

(** [while (stream >> word) { count++; }]. The counter is an [int]: the
    increment is written with the wrap-around of the usual two's complement
    targets (the language leaves the overflow undefined). The counter never
    exceeds the number of characters read (lemma [countWords_le_size]), so
    it stays in range for every text of at most [INT_MAX] characters. *)
Equations countWords_loop (stream : istringstream) (count : Z) : Z
  by wf (String.length stream) lt :=
  countWords_loop stream count with inspect (extract stream) => {
    | exist _ None _ => count;
    | exist _ (Some (word, stream')) _ =>
        countWords_loop stream' (Machine.to_int (count + 1)) }.
Next Obligation.
  eapply extract_shorter; eauto.
Qed.

(** [int countWords(const std::string& text)] *)
Definition countWords (text : string) : Z := countWords_loop text 0.

(** [Document(const std::string& content, const std::string& source)] *)
Definition Document_new (content source : string) : result Document :=
  if empty content then
    Throw (invalid_argument "Document content cannot be empty")
  else
    Ok {| content_ := content; source_ := source;
          wordCount_ := countWords content |}.

Definition getContent (d : Document) : string := content_ d.
Definition getSource (d : Document) : string := source_ d.
Definition getWordCount (d : Document) : Z := wordCount_ d.

(** *** class DocumentParser and class TextParser *)

(** The abstract interface: its two pure virtual member functions. *)
Record DocumentParser : Type :=
  { supports : string -> bool;
    parse : string -> string -> result Document }.

Definition TextParser : DocumentParser :=
  {| supports := fun mimeType => String.eqb mimeType "text/plain";
     parse := fun buffer filename => Document_new buffer filename |}.

(** *** class TextChunker *)

Record TextChunker : Type := { chunkSize_ : Z }.

(** [explicit TextChunker(int chunkSize = 1000) : chunkSize_(chunkSize) {}] *)
Definition TextChunker_new (chunkSize : Z) : result TextChunker :=
  Ok {| chunkSize_ := chunkSize |}.

(** The constructor called without argument. *)
Definition TextChunker_default : result TextChunker := TextChunker_new 1000.

(** The local variables [chunks] and [currentChunk] of [chunk]. *)
Record chunk_state : Type :=
  { chunks : list string; currentChunk : string }.

(** [chunks.push_back(currentChunk); currentChunk.clear();] *)
Definition flush (st : chunk_state) : chunk_state :=
  {| chunks := chunks st ++ [currentChunk st]; currentChunk := EmptyString |}.

(** [currentChunk += s;] *)
Definition append_current (st : chunk_state) (s : string) : chunk_state :=
  {| chunks := chunks st; currentChunk := currentChunk st ++ s |}.

(** One pass through the body of the [while] loop, with [sentence] as
    read by [getline]. The comparison is between a [size_t] sum and the
    [int] member [chunkSize_], which is converted to [size_t]. *)
Definition chunk_body (self : TextChunker) (sentence : string)
           (st : chunk_state) : chunk_state :=
  if negb (empty sentence) then
    let st1 :=
      if Machine.to_size_t (chunkSize_ self)
           <? Machine.size_add (size (currentChunk st)) (size sentence)
      then
        if negb (empty (currentChunk st)) then flush st else st
      else st in
    let st2 :=
      if negb (empty (currentChunk st1)) then append_current st1 ". "
      else st1 in
    append_current st2 sentence
  else st.

(** [while (std::getline(stream, sentence, '.')) { ... }] *)
Equations chunk_loop (self : TextChunker) (stream : istringstream)
          (st : chunk_state) : chunk_state
  by wf (String.length stream) lt :=
  chunk_loop self stream st with inspect (getline stream ".") => {
    | exist _ None _ => st;
    | exist _ (Some (sentence, stream')) _ =>
        chunk_loop self stream' (chunk_body self sentence st) }.
Next Obligation.
  eapply getline_shorter; eauto.
Qed.

(** [std::vector<std::string> chunk(const std::string& text) const] *)
Definition chunk (self : TextChunker) (text : string) : list string :=
  let st := chunk_loop self text {| chunks := []; currentChunk := EmptyString |} in
  if negb (empty (currentChunk st)) then chunks st ++ [currentChunk st]
  else chunks st.

End knowledge.

(** ** The parser registry

    Modelled from the spec: the parser registry and its dispatch function.
    The sources declare the parser interface and define the text parser, but
    hold no registry and no dispatch. After the specification, the registry
    is the list of the registered parsers, dispatch scans it in registration
    order and selects the first parser whose [supports] accepts the MIME
    type, and it fails with [UnsupportedMediaType] when no parser does. *)

Module Registry.

Import knowledge.

Inductive dispatch_error : Type :=
| UnsupportedMediaType.

Definition registry : Type := list DocumentParser.

Fixpoint dispatch (parsers : registry) (mimeType : string)
  : dispatch_error + DocumentParser :=
  match parsers with
  | [] => inl UnsupportedMediaType
  | p :: parsers' =>
      if supports p mimeType then inr p else dispatch parsers' mimeType
  end.

End Registry.

(** ** The C program

    A C string is represented by its characters up to, and without, the
    terminating NUL. [None] stands for the null pointer where a function
    returns a pointer to a fresh object, and for undefined behaviour where
    noted. *)

Module c_program.

Definition DEFAULT_CHUNK_SIZE : Z := 1000.

Record Document : Type :=
  { content : string; source : string; word_count : Z }.

(** The three characters the scan of [document_create] compares with. *)
Definition is_blank (c : ascii) : bool :=
  (Ascii.eqb c " " || Ascii.eqb c "010" || Ascii.eqb c "009")%bool.

(** [for (const char *p = content; *p; p++) { ... }] with the locals
    [in_word] and [doc->word_count]. The counter is an [int]: the increment
    is written with the wrap-around of the usual two's complement targets
    (the language leaves the overflow undefined). *)
Fixpoint count_scan (p : string) (in_word : bool) (word_count : Z) : Z :=
  match p with
  | EmptyString => word_count
  | String c p' =>
      if is_blank c then count_scan p' false word_count
      else if negb in_word then
        count_scan p' true (Machine.to_int (word_count + 1))
      else count_scan p' in_word word_count
  end.

(** What [document_create] prints on [stderr] when it refuses a content. *)
Definition empty_content_message : string :=
  "Document content cannot be empty" ++ String "010" EmptyString.

(** [Document* document_create(const char *content, const char *source)]:
    the text printed on [stderr] and the pointer returned. [content] may be
    the null pointer and [source] is a valid string; [malloc_ok] tells
    whether the allocation of the structure succeeds (the copies made by
    [strdup] are taken to succeed, the function does not test them). *)
Definition document_create (malloc_ok : bool) (content : option string)
           (source : string) : string * option Document :=
  match content with
  | None => (empty_content_message, None)
  | Some content =>
      if (size content =? 0) then (empty_content_message, None)
      else if negb malloc_ok then (EmptyString, None)
      else (EmptyString,
            Some {| content := content; source := source;
                    word_count := count_scan content false 0 |})
  end.

(** *** [chunk_text] *)

(** [start[i]]: the characters of the string, then the terminating NUL at
    index [strlen(start)]; reading anywhere else is undefined. *)
Definition char_at (start : string) (i : Z) : option ascii :=
  if i <? 0 then None
  else match String.get (Z.to_nat i) start with
       | Some c => Some c
       | None => if i =? size start then Some zero else None
       end.

(** [strndup(start, len)]: the [int] argument is converted to [size_t];
    at most that many characters are copied. *)
Definition strndup (start : string) (len : Z) : string :=
  take (Z.to_nat (Z.min (Machine.to_size_t len) (size start))) start.

(** [start += len]: defined as long as the pointer stays on the string
    or on its terminator. *)
Definition advance (start : string) (len : Z) : option string :=
  if ((0 <=? len) && (len <=? size start))%bool
  then Some (drop (Z.to_nat len) start)
  else None.

(** [while (len > 0 && start[len] != '.' && start[len] != '\n') len--;]
    returns the final value of [len]. *)
Equations find_boundary (start : string) (len : Z) : option Z
  by wf (Z.to_nat len) lt :=
  find_boundary start len with inspect (0 <? len) => {
    | exist _ false _ => Some len;
    | exist _ true _ with char_at start len => {
        | None => None;
        | Some c =>
            if (negb (Ascii.eqb c ".") && negb (Ascii.eqb c "010"))%bool
            then find_boundary start (len - 1)
            else Some len } }.
Next Obligation.
  match goal with H : (_ <? _) = true |- _ => apply Z.ltb_lt in H end.
  lia.
Qed.

(** The value of [len] at the call of [strndup]. *)
Definition chunk_len (start : string) (chunk_size : Z) : option Z :=
  if size start <? Machine.to_size_t chunk_size then
    Some (Machine.to_int (size start))
  else
    match find_boundary start chunk_size with
    | None => None
    | Some len => if len =? 0 then Some chunk_size else Some (len + 1)
    end.

(** The variables of the outer loop: the cursor [start], [*chunk_count]
    and the slots of [chunks] filled so far. *)
Record cursor : Type :=
  { start : string; chunk_count : Z; chunks : list string }.

(** [while ( *start ) { ... }]. [capacity] is the number of slots that were
    allocated for [chunks]; a store past them is undefined behaviour. Every
    pass fills one slot, which is what bounds the loop. *)
Equations chunk_loop (chunk_size capacity : Z) (st : cursor)
  : option (list string)
  by wf (Z.to_nat (capacity - chunk_count st)) lt :=
  chunk_loop chunk_size capacity st with inspect (empty (start st)) => {
    | exist _ true _ => Some (chunks st);
    | exist _ false _ with chunk_len (start st) chunk_size => {
        | None => None;
        | Some len with inspect (chunk_count st <? capacity) => {
            | exist _ false _ => None;
            | exist _ true _ with advance (start st) len => {
                | None => None;
                | Some start' =>
                    chunk_loop chunk_size capacity
                      {| start := start';
                         chunk_count := chunk_count st + 1;
                         chunks := chunks st ++ [strndup (start st) len] |}
              } } } }.
Next Obligation.
  match goal with H : (_ <? _) = true |- _ => apply Z.ltb_lt in H end.
  simpl. lia.
Qed.

(** [char** chunk_text(const char *text, int chunk_size, int *chunk_count)].
    The result is the array of chunks, whose length is [*chunk_count].
    [None] is undefined behaviour: the division by zero, a read outside
    the text or a store outside the allocated array. Allocations are taken
    to succeed (the function does not test them). *)
Definition chunk_text (text : string) (chunk_size : Z)
  : option (list string) :=
  let text_len := size text in
  if Machine.to_size_t chunk_size =? 0 then None
  else
    let estimated_chunks :=
      Machine.to_int
        (Machine.size_add (text_len / Machine.to_size_t chunk_size) 1) in
    let capacity :=
      Machine.to_size_t (Machine.to_size_t estimated_chunks * 8) / 8 in
    chunk_loop chunk_size capacity
      {| start := text; chunk_count := 0; chunks := [] |}.

End c_program.

(** ** Notions used by the properties *)

Module Props.

Import Stream knowledge.

(** [c] put in front of the first string of [l]. *)
Definition cons_head (c : ascii) (l : list string) : list string :=
  match l with
  | [] => [String c EmptyString]
  | p :: ps => String c p :: ps
  end.

(** The sentences that the loop of [chunk] obtains from [getline], in the
    order in which it obtains them. *)
Fixpoint sentences (text : string) : list string :=
  match text with
  | EmptyString => []
  | String c s' =>
      if Ascii.eqb c "." then EmptyString :: sentences s'
      else cons_head c (sentences s')
  end.

(** A chunk under construction: the fragments of a group joined by the
    separator that [chunk] inserts. *)
Fixpoint join (g : list string) : string :=
  match g with
  | [] => EmptyString
  | f :: g' =>
      match g' with
      | [] => f
      | _ :: _ => f ++ ". " ++ join g'
      end
  end.

Definition nonempty (s : string) : bool := negb (empty s).

(** No full stop in [s]. *)
Fixpoint dot_free (s : string) : bool :=
  match s with
  | EmptyString => true
  | String c s' => (negb (Ascii.eqb c ".") && dot_free s')%bool
  end.

(** The pieces of a chunk once the inserted separators, a full stop
    followed by a space, are taken out. *)
Fixpoint unjoin (chunk : string) : list string :=
  match chunk with
  | EmptyString => [EmptyString]
  | String c s' =>
      match s' with
      | EmptyString => [String c EmptyString]
      | String d s'' =>
          if (Ascii.eqb c "." && Ascii.eqb d " ")%bool
          then EmptyString :: unjoin s''
          else cons_head c (unjoin s')
      end
  end.

(** The fragments put end to end, each one followed by its full stop. *)
Fixpoint terminate_all (frags : list string) : string :=
  match frags with
  | [] => EmptyString
  | f :: frags' => f ++ "." ++ terminate_all frags'
  end.

(** A list of chunks read back as text: separators removed, pieces
    concatenated in order with the full stops restored. *)
Definition restore (chunks : list string) : string :=
  terminate_all (flat_map unjoin chunks).

(** No full stop and no newline: nothing that [chunk_text] takes for a
    sentence boundary. *)
Fixpoint boundary_free (s : string) : bool :=
  match s with
  | EmptyString => true
  | String c s' =>
      (negb (Ascii.eqb c ".") && negb (Ascii.eqb c "010")
       && boundary_free s')%bool
  end.

(** The text cut into consecutive pieces of [n] characters, the last one
    possibly shorter. [fuel] bounds the number of pieces; the length of the
    text is enough for [n] greater than zero. *)
Fixpoint pieces_upto (fuel n : nat) (s : string) : list string :=
  match fuel with
  | O => []
  | S fuel' =>
      match s with
      | EmptyString => []
      | String _ _ => take n s :: pieces_upto fuel' n (drop n s)
      end
  end.

Definition pieces (n : nat) (s : string) : list string :=
  pieces_upto (String.length s) n s.

(** Index [i] of [s] starts a maximal run of characters that are not white
    space: the character there is not white space, and it is the first of
    the text or the character before it is white space. [ws] tells which
    characters are white space. *)
Definition starts_run (ws : ascii -> bool) (s : string) (i : nat) : bool :=
  match String.get i s with
  | None => false
  | Some c =>
      negb (ws c) &&
      match i with
      | O => true
      | S j => match String.get j s with
               | Some d => ws d
               | None => false
               end
      end
  end.

(** The number of maximal runs of characters that are not white space. *)
Definition run_count (ws : ascii -> bool) (s : string) : Z :=
  Z.of_nat
    (List.length (filter (starts_run ws s) (seq 0 (String.length s)))).

(** The two-state scan: [in_word] tells whether the previous character
    belongs to a word; the result is the number of words that start in
    [s]. *)
Fixpoint scan (ws : ascii -> bool) (s : string) (in_word : bool) : nat :=
  match s with
  | EmptyString => O
  | String c s' =>
      if ws c then scan ws s' false
      else if in_word then scan ws s' true
      else S (scan ws s' true)
  end.

(** [starts_run] for a text that follows a character of which [prev]
    tells whether it is white space. *)
Definition starts_run_after (ws : ascii -> bool) (prev : bool) (s : string)
           (i : nat) : bool :=
  match String.get i s with
  | None => false
  | Some c =>
      negb (ws c) &&
      match i with
      | O => prev
      | S j => match String.get j s with
               | Some d => ws d
               | None => false
               end
      end
  end.

(** What the loop of [chunk] maintains: the chunks already emitted and the
    chunk under construction are joined groups of the non-empty sentences
    read so far, in order. *)
Definition holds (groups : list (list string)) (g : list string)
           (st : chunk_state) : Prop :=
  chunks st = map join groups /\ currentChunk st = join g.

Definition grouped (done : list string) (st : chunk_state) : Prop :=
  exists groups g,
    holds groups g st /\
    Forall (fun g => g <> []) groups /\
    (List.concat groups ++ g)%list = filter nonempty done.

(** The three characters "a", carriage return, "b". *)
Definition a_cr_b : string :=
  String "a" (String "013" (String "b" EmptyString)).

(** Nothing but full stops. *)
Fixpoint all_dots (s : string) : bool :=
  match s with
  | EmptyString => true
  | String c s' => (Ascii.eqb c "." && all_dots s')%bool
  end.

(** The last character is a full stop. *)
Fixpoint ends_with_dot (s : string) : bool :=
  match s with
  | EmptyString => false
  | String c s' =>
      match s' with
      | EmptyString => Ascii.eqb c "."
      | String _ _ => ends_with_dot s'
      end
  end.

(** The room that sentences can take in a chunk: their characters and one
    separator each. *)
Fixpoint weight (l : list string) : Z :=
  match l with
  | [] => 0
  | f :: l' => size f + 2 + weight l'
  end.

(** The last steps of [chunk]: the chunk under construction is pushed
    unless it is empty. *)
Definition finish (st : chunk_state) : list string :=
  if negb (empty (currentChunk st)) then chunks st ++ [currentChunk st]
  else chunks st.

(** No vertical tab, form feed or carriage return in [s]: the characters
    that [std::isspace] accepts and the scan of [document_create] does
    not. *)
Fixpoint plain_blanks (s : string) : bool :=
  match s with
  | EmptyString => true
  | String c s' =>
      (negb (existsb (Ascii.eqb c) ["011"; "012"; "013"]%char)
       && plain_blanks s')%bool
  end.

(** No NUL character in [s]: the content of a [std::string] that a C
    string can hold as well. *)
Fixpoint nul_free (s : string) : bool :=
  match s with
  | EmptyString => true
  | String c s' => (negb (Ascii.eqb c zero) && nul_free s')%bool
  end.

(** The chunks put end to end. *)
Fixpoint flatten (l : list string) : string :=
  match l with
  | [] => EmptyString
  | c :: l' => c ++ flatten l'
  end.




(** Groups of sentences that could not have been larger: the first
    sentence of each group but the first did not pass the test of [chunk]
    against the group before it, joined. *)
Fixpoint tight (chunkSize : Z) (groups : list (list string)) : Prop :=
  match groups with
  | [] => True
  | g1 :: rest =>
      match rest with
      | [] => True
      | g2 :: _ =>
          chunkSize < size (join g1) + size (hd EmptyString g2) /\
          tight chunkSize rest
      end
  end.

End Props.

(** ** Properties *)

Section StringFacts.

Lemma append_assoc (a b c : string) : (a ++ b) ++ c = a ++ (b ++ c).
Proof. induction a as [|x a IH]; simpl; [reflexivity | now rewrite IH]. Qed.

Lemma append_empty_r (a : string) : a ++ "" = a.
Proof. induction a as [|x a IH]; simpl; [reflexivity | now rewrite IH]. Qed.

Lemma empty_true (s : string) : empty s = true <-> s = "".
Proof. destruct s; simpl; split; congruence. Qed.

Lemma empty_false (s : string) : empty s = false <-> s <> "".
Proof. destruct s; simpl; split; congruence. Qed.

Lemma empty_append (a b : string) :
  empty (a ++ b) = (empty a && empty b)%bool.
Proof. destruct a; reflexivity. Qed.

End StringFacts.

Section ChunkerFacts.

Import Stream knowledge Props.

Variable self : TextChunker.

(** The loop of [chunk], one iteration unfolded. *)
Lemma chunk_loop_unfold stream st :
  chunk_loop self stream st =
  match getline stream "." with
  | None => st
  | Some (sentence, stream') =>
      chunk_loop self stream' (chunk_body self sentence st)
  end.
Proof.
  funelim (chunk_loop self stream st).
  - rewrite e. reflexivity.
  - rewrite e. reflexivity.
Qed.

Lemma read_until_sentences s :
  sentences s =
  match s with
  | EmptyString => []
  | String _ _ =>
      fst (read_until "." s) :: sentences (snd (read_until "." s))
  end.
Proof.
  induction s as [|c s IH]; [reflexivity|].
  cbn [sentences read_until].
  destruct (Ascii.eqb c "."); [reflexivity|].
  rewrite IH. destruct s as [|d s]; [reflexivity|].
  destruct (read_until "." (String d s)) as [l r]. reflexivity.
Qed.

Lemma getline_sentences c s :
  match getline (String c s) "." with
  | Some (sentence, stream') =>
      sentences (String c s) = sentence :: sentences stream'
  | None => False
  end.
Proof.
  cbn [getline]. rewrite (read_until_sentences (String c s)).
  destruct (read_until "." (String c s)) as [l r]. reflexivity.
Qed.

(** The loop of [chunk] runs its body on the sentences of the text. *)
Lemma chunk_loop_fold stream :
  forall st,
    chunk_loop self stream st =
    fold_left (fun st sentence => chunk_body self sentence st)
              (sentences stream) st.
Proof.
  remember (String.length stream) as n eqn:Hn.
  revert stream Hn.
  induction n as [n IH] using lt_wf_ind. intros stream Hn st.
  rewrite chunk_loop_unfold.
  destruct stream as [|c s]; [reflexivity|].
  pose proof (getline_sentences c s) as Hg.
  destruct (getline (String c s) ".") as [[sentence stream']|] eqn:E;
    [|contradiction].
  rewrite Hg. cbn [fold_left].
  apply (IH (String.length stream')); [|reflexivity].
  subst n. eapply getline_shorter; eassumption.
Qed.

Lemma join_snoc g f :
  g <> [] -> join (g ++ [f]) = (join g ++ ". ") ++ f.
Proof.
  induction g as [|x g IH]; [congruence|]. intros _.
  destruct g as [|y g].
  - simpl. now rewrite append_assoc.
  - change (join ((x :: y :: g) ++ [f]))
      with (x ++ ". " ++ join ((y :: g) ++ [f])).
    rewrite IH by discriminate.
    change (join (x :: y :: g)) with (x ++ ". " ++ join (y :: g)).
    now rewrite !append_assoc.
Qed.

Lemma join_empty g :
  Forall (fun f => nonempty f = true) g -> empty (join g) = true -> g = [].
Proof.
  destruct g as [|x g]; [reflexivity|].
  intros Hg. inversion Hg as [|? ? Hx _]; subst.
  unfold nonempty in Hx. destruct g; simpl.
  - intros E. rewrite E in Hx. discriminate.
  - rewrite empty_append. intros E.
    apply andb_true_iff in E. destruct E as [E _].
    rewrite E in Hx. discriminate.
Qed.

Lemma join_nonempty g :
  g <> [] -> Forall (fun f => nonempty f = true) g -> empty (join g) = false.
Proof.
  intros Hne Hg. destruct (empty (join g)) eqn:E; [|reflexivity].
  apply join_empty in E; [contradiction | assumption].
Qed.

Lemma holds_flush groups g st :
  holds groups g st -> holds (groups ++ [g]) [] (flush st).
Proof.
  intros [Hch Hcur]. split; cbn; [|reflexivity].
  now rewrite map_app, Hch, Hcur.
Qed.

Lemma holds_append groups g st sentence :
  holds groups g st ->
  Forall (fun f => nonempty f = true) g ->
  holds groups (g ++ [sentence])
    (append_current
       (if negb (empty (currentChunk st)) then append_current st ". " else st)
       sentence).
Proof.
  intros [Hch Hcur] Hg.
  destruct (empty (currentChunk st)) eqn:Ec; cbn [negb].
  - rewrite Hcur in Ec. apply join_empty in Ec; [|assumption]. subst g.
    split; cbn; [assumption|]. now rewrite Hcur.
  - assert (g <> []) as Hgne
        by (intros ->; rewrite Hcur in Ec; discriminate).
    split; cbn; [assumption|].
    rewrite join_snoc by assumption. now rewrite Hcur.
Qed.

Lemma filter_suffix_nonempty (done : list string) groups g :
  (List.concat groups ++ g)%list = filter nonempty done ->
  Forall (fun f => nonempty f = true) g.
Proof.
  intros H. apply Forall_forall. intros f Hf.
  assert (In f (filter nonempty done)) as Hin
      by (rewrite <- H; apply in_or_app; now right).
  apply filter_In in Hin. tauto.
Qed.

Lemma chunk_body_grouped done st sentence :
  grouped done st -> grouped (done ++ [sentence]) (chunk_body self sentence st).
Proof.
  intros (groups & g & Hst & Hne & Hcat).
  pose proof (filter_suffix_nonempty _ _ _ Hcat) as Hg.
  unfold chunk_body, grouped.
  rewrite filter_app. cbn [filter]. fold (nonempty sentence).
  destruct (nonempty sentence) eqn:Hs.
  2:{ exists groups, g. rewrite app_nil_r. auto. }
  assert (exists groups' g',
             holds groups' g'
               (if Machine.to_size_t (chunkSize_ self)
                   <? Machine.size_add (size (currentChunk st)) (size sentence)
                then if negb (empty (currentChunk st)) then flush st else st
                else st) /\
             Forall (fun g => g <> []) groups' /\
             Forall (fun f => nonempty f = true) g' /\
             (List.concat groups' ++ g')%list = (List.concat groups ++ g)%list)
    as (groups' & g' & Hst' & Hne' & Hg' & Hcat').
  { destruct (_ <? _); [|now exists groups, g].
    destruct (empty (currentChunk st)) eqn:Ec; [now exists groups, g|].
    exists (groups ++ [g])%list, []. split; [|split; [|split]].
    - apply holds_flush, Hst.
    - apply Forall_app. split; [assumption|]. constructor; [|constructor].
      intros ->. destruct Hst as [_ Hcur]. rewrite Hcur in Ec. discriminate.
    - constructor.
    - rewrite concat_app. cbn. now rewrite !app_nil_r. }
  exists groups', (g' ++ [sentence])%list. split; [|split].
  - apply holds_append; assumption.
  - assumption.
  - rewrite app_assoc, Hcat', Hcat. reflexivity.
Qed.

Lemma fold_grouped sentences0 :
  forall done st,
    grouped done st ->
    grouped (done ++ sentences0)
      (fold_left (fun st sentence => chunk_body self sentence st) sentences0 st).
Proof.
  induction sentences0 as [|x xs IH]; intros done st H.
  - now rewrite app_nil_r.
  - cbn [fold_left].
    replace (done ++ x :: xs)%list with ((done ++ [x]) ++ xs)%list
      by (now rewrite <- app_assoc).
    apply IH, chunk_body_grouped, H.
Qed.

(** Every result of [chunk] is a list of joined groups; the groups are not
    empty and, put end to end, are the non-empty sentences of the text. *)
Lemma chunk_groups text :
  exists groups,
    chunk self text = map join groups /\
    Forall (fun g => g <> []) groups /\
    List.concat groups = filter nonempty (sentences text).
Proof.
  unfold chunk. rewrite chunk_loop_fold.
  destruct (fold_grouped (sentences text) []
              {| chunks := []; currentChunk := "" |})
    as (groups & g & [Hch Hcur] & Hne & Hcat).
  { exists [], []. split; [split; reflexivity|]. split; constructor. }
  cbn [app] in Hcat.
  pose proof (filter_suffix_nonempty _ _ _ Hcat) as Hg.
  destruct (empty (currentChunk _)) eqn:Ec; cbn [negb].
  - rewrite Hcur in Ec. apply join_empty in Ec; [|assumption]. subst g.
    exists groups. rewrite app_nil_r in Hcat. auto.
  - exists (groups ++ [g])%list. split; [|split].
    + now rewrite map_app, Hch, Hcur.
    + apply Forall_app. split; [assumption|]. constructor; [|constructor].
      intros ->. rewrite Hcur in Ec. discriminate.
    + rewrite concat_app. cbn. now rewrite app_nil_r.
Qed.

Lemma sentences_fragment f rest :
  dot_free f = true -> sentences (f ++ "." ++ rest) = f :: sentences rest.
Proof.
  induction f as [|c f IH]; [reflexivity|].
  cbn [dot_free]. intros H. apply andb_true_iff in H. destruct H as [Hc Hf].
  apply negb_true_iff in Hc.
  cbn [append sentences]. rewrite Hc.
  change (f ++ String "." rest) with (f ++ "." ++ rest).
  rewrite IH by assumption. reflexivity.
Qed.

Lemma sentences_terminate_all frags :
  Forall (fun f => dot_free f = true) frags ->
  sentences (terminate_all frags) = frags.
Proof.
  induction 1 as [|f frags Hf _ IH]; [reflexivity|].
  cbn [terminate_all]. rewrite sentences_fragment by assumption.
  now rewrite IH.
Qed.

Lemma sentences_dot_free text :
  text <> "" -> dot_free text = true -> sentences text = [text].
Proof.
  induction text as [|c s IH]; [congruence|]. intros _.
  cbn [dot_free]. intros H. apply andb_true_iff in H. destruct H as [Hc Hs].
  apply negb_true_iff in Hc. cbn [sentences]. rewrite Hc.
  destruct s as [|d s]; [reflexivity|].
  rewrite IH by (congruence || assumption). reflexivity.
Qed.

Lemma unjoin_dot_free f : dot_free f = true -> unjoin f = [f].
Proof.
  induction f as [|c f IH]; [reflexivity|].
  cbn [dot_free]. intros H. apply andb_true_iff in H. destruct H as [Hc Hf].
  apply negb_true_iff in Hc. cbn [unjoin].
  destruct f as [|d f]; [reflexivity|].
  rewrite Hc. cbn [andb]. rewrite IH by assumption. reflexivity.
Qed.

Lemma unjoin_separator f rest :
  dot_free f = true -> unjoin (f ++ ". " ++ rest) = f :: unjoin rest.
Proof.
  induction f as [|c f IH]; [reflexivity|].
  cbn [dot_free]. intros H. apply andb_true_iff in H. destruct H as [Hc Hf].
  apply negb_true_iff in Hc.
  specialize (IH Hf).
  destruct f as [|d f].
  - cbn in IH |- *. rewrite Hc. cbn. reflexivity.
  - cbn [append] in IH |- *. cbn [unjoin]. fold unjoin.
    rewrite Hc. cbn [andb].
    change (cons_head c (unjoin (String d (f ++ String "." (String " " rest))))
            = String c (String d f) :: unjoin rest).
    rewrite IH. reflexivity.
Qed.

Lemma unjoin_join g :
  g <> [] -> Forall (fun f => dot_free f = true) g -> unjoin (join g) = g.
Proof.
  induction g as [|f g IH]; [congruence|]. intros _ H.
  inversion H as [|? ? Hf Hg]; subst.
  destruct g as [|f' g]; [now apply unjoin_dot_free|].
  change (join (f :: f' :: g)) with (f ++ ". " ++ join (f' :: g)).
  rewrite unjoin_separator by assumption.
  rewrite IH by (congruence || assumption). reflexivity.
Qed.

Lemma flat_map_unjoin_join groups :
  Forall (fun g => g <> []) groups ->
  Forall (fun f => dot_free f = true) (List.concat groups) ->
  flat_map unjoin (map join groups) = List.concat groups.
Proof.
  induction 1 as [|g groups Hg _ IH]; [reflexivity|].
  cbn [List.concat map flat_map]. intros H.
  apply Forall_app in H. destruct H as [H1 H2].
  rewrite unjoin_join by assumption. now rewrite IH.
Qed.

End ChunkerFacts.

(** ** The chunker: the claims *)

Section ChunkerClaims.

Import Stream knowledge Props.

(** C1, as amended. For every chunk size greater than zero and every text
    that is a sequence of fragments, each non-empty, free of full stops and
    followed by its full stop, the chunks of the text, with the inserted
    separators removed, are exactly the fragments in document order, and
    putting them end to end with the full stops restored gives back the
    text. *)
Theorem chunk_restores_terminated_text (self : TextChunker)
        (frags : list string) :
  0 < chunkSize_ self ->
  Forall (fun f => nonempty f = true /\ dot_free f = true) frags ->
  flat_map unjoin (chunk self (terminate_all frags)) = frags /\
  restore (chunk self (terminate_all frags)) = terminate_all frags.
Proof.
  intros _ Hfrags.
  assert (Forall (fun f => dot_free f = true) frags) as Hdot
      by (eapply Forall_impl; [|exact Hfrags]; cbn; tauto).
  assert (filter nonempty frags = frags) as Hfilter.
  { clear Hdot. induction Hfrags as [|f frags [Hf _] _ IH]; [reflexivity|].
    cbn. now rewrite Hf, IH. }
  destruct (chunk_groups self (terminate_all frags))
    as (groups & Hchunk & Hne & Hcat).
  rewrite sentences_terminate_all, Hfilter in Hcat by assumption.
  assert (flat_map unjoin (chunk self (terminate_all frags)) = frags) as H.
  { rewrite Hchunk, flat_map_unjoin_join; [assumption.. |].
    now rewrite Hcat. }
  split; [exact H|]. unfold restore. now rewrite H.
Qed.

(** C1, an instance of the theorem: three sentences and a chunk size of
    20. *)
Lemma chunk_restores_terminated_text_witness :
  0 < chunkSize_ {| chunkSize_ := 20 |} /\
  Forall (fun f => nonempty f = true /\ dot_free f = true)
         ["A short sentence"; " Another one here"; " And a third"] /\
  restore (chunk {| chunkSize_ := 20 |}
                 "A short sentence. Another one here. And a third.")
  = "A short sentence. Another one here. And a third.".
Proof.
  split; [reflexivity|].
  split; [repeat constructor|].
  apply (chunk_restores_terminated_text
           {| chunkSize_ := 20 |}
           ["A short sentence"; " Another one here"; " And a third"]).
  - reflexivity.
  - repeat constructor.
Defined.

(** C1, as stated, fails on a text in which two full stops follow each
    other: the text ends with a full stop and is made of the fragments
    "a", "" and "b", yet the empty fragment leaves no trace in the chunks
    and the text read back lacks one full stop. *)
Lemma chunk_drops_empty_fragment :
  terminate_all ["a"; ""; "b"] = "a..b." /\
  0 < chunkSize_ {| chunkSize_ := 1000 |} /\
  chunk {| chunkSize_ := 1000 |} "a..b." = ["a. b"] /\
  restore (chunk {| chunkSize_ := 1000 |} "a..b.") = "a.b." /\
  restore (chunk {| chunkSize_ := 1000 |} "a..b.") <> "a..b.".
Proof.
  repeat split; try reflexivity. vm_compute. discriminate.
Qed.

(** C2, as amended. With a chunk size of 20 the text "A short sentence.
    Another one here. And a third." is cut into three chunks, in that
    order; the chunks carry no full stop and keep the space that follows
    each full stop of the text. *)
Theorem chunk_three_sentences :
  chunk {| chunkSize_ := 20 |}
        "A short sentence. Another one here. And a third."
  = ["A short sentence"; " Another one here"; " And a third"].
Proof. reflexivity. Qed.

(** C2, as stated, fails: the chunks obtained are not the three sentences
    with their full stops. *)
Lemma chunk_three_sentences_not_as_stated :
  chunk {| chunkSize_ := 20 |}
        "A short sentence. Another one here. And a third."
  = ["A short sentence"; " Another one here"; " And a third"] /\
  chunk {| chunkSize_ := 20 |}
        "A short sentence. Another one here. And a third."
  <> ["A short sentence."; "Another one here."; "And a third."].
Proof. split; [reflexivity | vm_compute; discriminate]. Qed.

(** C5, as amended. Constructing a [TextChunker] never fails: every chunk
    size, the non-positive ones included, is accepted and stored as it is
    given. *)
Theorem TextChunker_new_accepts (chunkSize : Z) :
  exists self,
    TextChunker_new chunkSize = Ok self /\ chunkSize_ self = chunkSize.
Proof. eexists. split; reflexivity. Qed.

(** C5, as stated, fails: chunk sizes 0 and -1 are accepted. *)
Lemma TextChunker_new_accepts_nonpositive :
  0 <= 0 /\ -1 <= 0 /\
  TextChunker_new 0 = Ok {| chunkSize_ := 0 |} /\
  TextChunker_new (-1) = Ok {| chunkSize_ := -1 |}.
Proof. repeat split; discriminate. Qed.

(** C8. For every chunk size, the chunks of the empty text are the empty
    sequence. *)
Theorem chunk_empty_text (self : TextChunker) : chunk self "" = [].
Proof. unfold chunk. rewrite chunk_loop_fold. reflexivity. Qed.

(** C10. For every text and every chunk size, no chunk returned by
    [chunk] is the empty string. *)
Theorem chunk_no_empty_chunk (self : TextChunker) (text : string) :
  Forall (fun c => c <> "") (chunk self text).
Proof.
  destruct (chunk_groups self text) as (groups & -> & Hne & Hcat).
  assert (Forall (fun f => nonempty f = true) (List.concat groups)) as Hall.
  { rewrite Hcat. apply Forall_forall. intros f Hf.
    apply filter_In in Hf. tauto. }
  clear Hcat. induction Hne as [|g groups Hg _ IH]; [constructor|].
  cbn [List.concat] in Hall. apply Forall_app in Hall.
  destruct Hall as [H1 H2]. cbn [map]. constructor; [|now apply IH].
  apply empty_false, join_nonempty; assumption.
Qed.

End ChunkerClaims.

(** ** Counting words *)

Section WordCount.

Import Stream knowledge Props.

Variable ws : ascii -> bool.

Lemma starts_run_after_shift prev c s i :
  starts_run_after ws prev (String c s) (S i) = starts_run_after ws (ws c) s i.
Proof.
  unfold starts_run_after. cbn [String.get].
  destruct (String.get i s) as [d|]; [|reflexivity].
  destruct i as [|j]; reflexivity.
Qed.

Lemma filter_seq_shift (f : nat -> bool) n :
  List.length (filter f (seq 1 n))
  = List.length (filter (fun i => f (S i)) (seq 0 n)).
Proof.
  rewrite <- seq_shift.
  induction (seq 0 n) as [|x l IH]; [reflexivity|].
  cbn. destruct (f (S x)); cbn; now rewrite IH.
Qed.

Lemma starts_run_after_tail prev c s n :
  List.length (filter (starts_run_after ws prev (String c s)) (seq 1 n))
  = List.length (filter (starts_run_after ws (ws c) s) (seq 0 n)).
Proof.
  rewrite filter_seq_shift. f_equal. apply filter_ext. intros i.
  apply starts_run_after_shift.
Qed.

Lemma scan_starts s :
  forall in_word,
    scan ws s in_word
    = List.length (filter (starts_run_after ws (negb in_word) s)
                          (seq 0 (String.length s))).
Proof.
  induction s as [|c s IH]; intros in_word; [reflexivity|].
  cbn [String.length seq filter scan].
  unfold starts_run_after at 1. cbn [String.get].
  destruct (ws c) eqn:Hc; cbn [negb andb].
  - rewrite starts_run_after_tail, Hc. apply IH.
  - destruct in_word; cbn [negb List.length];
      rewrite starts_run_after_tail, Hc; [|f_equal]; apply IH.
Qed.

Lemma scan_run_count s : Z.of_nat (scan ws s false) = run_count ws s.
Proof.
  unfold run_count. rewrite scan_starts. reflexivity.
Qed.

Lemma scan_positive s :
  (0 < scan ws s false)%nat <->
  exists c, In c (list_ascii_of_string s) /\ ws c = false.
Proof.
  induction s as [|c s IH]; cbn [scan list_ascii_of_string].
  - split; [lia | intros (c & [] & _)].
  - destruct (ws c) eqn:Hc.
    + rewrite IH. split; intros (d & Hd & Hw).
      * exists d. split; [now right | assumption].
      * destruct Hd as [<- | Hd]; [congruence|]. now exists d.
    + split; [|lia]. intros _. exists c. split; [now left | assumption].
Qed.

End WordCount.

Section WordCountPrograms.

Import Stream knowledge Props.

(** An [int] that stays in range is not changed by the conversion. *)
Lemma to_int_id z :
  Machine.INT_MIN <= z <= Machine.INT_MAX -> Machine.to_int z = z.
Proof.
  intros H. unfold Machine.to_int, Machine.INT_MIN, Machine.INT_MAX in *.
  change (2 ^ 32) with 4294967296. change (2 ^ 31) with 2147483648 in *.
  rewrite Z.mod_small; lia.
Qed.

(** The two-state scan counts at most one word per character. *)
Lemma scan_le_length ws s in_word :
  (scan ws s in_word <= String.length s)%nat.
Proof.
  revert in_word. induction s as [|c s IH]; intros in_word; cbn; [lia|].
  destruct (ws c); [|destruct in_word];
    match goal with |- context [scan ws s ?b] => specialize (IH b) end; lia.
Qed.

(** The scan of [document_create] is the two-state scan for the three
    blank characters, as long as the counter stays in the range of
    [int]. *)
Lemma count_scan_scan p :
  forall in_word word_count,
    Machine.INT_MIN <= word_count ->
    word_count + Z.of_nat (scan c_program.is_blank p in_word)
    <= Machine.INT_MAX ->
    c_program.count_scan p in_word word_count
    = word_count + Z.of_nat (scan c_program.is_blank p in_word).
Proof.
  induction p as [|c p IH]; intros in_word word_count Hmin Hmax;
    cbn [c_program.count_scan scan] in *; [lia|].
  destruct (c_program.is_blank c); [now apply IH|].
  destruct in_word; cbn [negb]; [now apply IH|].
  rewrite to_int_id by lia. rewrite IH; lia.
Qed.

Lemma count_scan_of_content content :
  size content <= Machine.INT_MAX ->
  c_program.count_scan content false 0
  = Z.of_nat (scan c_program.is_blank content false).
Proof.
  intros H. pose proof (scan_le_length c_program.is_blank content false).
  rewrite count_scan_scan; unfold size, Machine.INT_MIN in *; lia.
Qed.

Lemma scan_skipws s : scan isspace s false = scan isspace (skipws s) false.
Proof.
  induction s as [|c s IH]; [reflexivity|].
  cbn [skipws]. destruct (isspace c) eqn:Hc; [|reflexivity].
  cbn [scan]. now rewrite Hc.
Qed.

Lemma scan_read_word s :
  scan isspace s true = scan isspace (snd (read_word s)) false.
Proof.
  induction s as [|c s IH]; [reflexivity|].
  cbn [read_word scan]. destruct (isspace c) eqn:Hc.
  - cbn [snd scan]. now rewrite Hc.
  - destruct (read_word s) as [w rest]. exact IH.
Qed.

(** What one extraction does to the number of words still to be read. *)
Lemma extract_scan stream :
  match extract stream with
  | None => scan isspace stream false = O
  | Some (_, stream') =>
      scan isspace stream false = S (scan isspace stream' false)
  end.
Proof.
  unfold extract. rewrite scan_skipws.
  destruct (skipws stream) as [|c s] eqn:E; [reflexivity|].
  pose proof (skipws_head _ _ _ E) as Hc.
  pose proof (scan_read_word s) as Hw.
  cbn [read_word scan]. rewrite Hc.
  destruct (read_word s) as [w rest]. now rewrite Hw.
Qed.

Lemma countWords_loop_unfold stream count :
  countWords_loop stream count =
  match extract stream with
  | None => count
  | Some (_, stream') =>
      countWords_loop stream' (Machine.to_int (count + 1))
  end.
Proof.
  funelim (countWords_loop stream count).
  - rewrite e. reflexivity.
  - rewrite e. reflexivity.
Qed.

Lemma countWords_loop_scan stream :
  forall count,
    Machine.INT_MIN <= count ->
    count + Z.of_nat (scan isspace stream false) <= Machine.INT_MAX ->
    countWords_loop stream count
    = count + Z.of_nat (scan isspace stream false).
Proof.
  remember (String.length stream) as n eqn:Hn. revert stream Hn.
  induction n as [n IH] using lt_wf_ind. intros stream Hn count Hmin Hmax.
  rewrite countWords_loop_unfold.
  pose proof (extract_scan stream) as Hs.
  destruct (extract stream) as [[word stream']|] eqn:E.
  - rewrite Hs in Hmax |- *. rewrite to_int_id by lia.
    rewrite (IH (String.length stream')); [lia | | reflexivity | lia | lia].
    subst n. eapply extract_shorter; eassumption.
  - lia.
Qed.

(** The counter stays within [int] for every text that [int] can measure. *)
Lemma countWords_of_content text :
  size text <= Machine.INT_MAX ->
  countWords text = Z.of_nat (scan isspace text false).
Proof.
  intros H. pose proof (scan_le_length isspace text false).
  unfold countWords.
  rewrite countWords_loop_scan; unfold size, Machine.INT_MIN in *; lia.
Qed.

Lemma countWords_run_count text :
  size text <= Machine.INT_MAX -> countWords text = run_count isspace text.
Proof.
  intros H. rewrite countWords_of_content by assumption.
  apply scan_run_count.
Qed.

Lemma countWords_le_size text :
  size text <= Machine.INT_MAX -> 0 <= countWords text <= size text.
Proof.
  intros H. rewrite countWords_of_content by assumption. unfold size.
  pose proof (scan_le_length isspace text false). lia.
Qed.

(** The white space of the two programs, character by character. *)
Lemma isspace_chars c :
  isspace c = existsb (Ascii.eqb c) [" "; "009"; "010"; "011"; "012"; "013"]%char.
Proof. destruct c as [[] [] [] [] [] [] [] []]; reflexivity. Qed.

Lemma is_blank_chars c :
  c_program.is_blank c = existsb (Ascii.eqb c) [" "; "010"; "009"]%char.
Proof. destruct c as [[] [] [] [] [] [] [] []]; reflexivity. Qed.

End WordCountPrograms.

(** ** Documents: the claims *)

Section DocumentClaims.

Import Stream knowledge Props.

(** C3, as amended. For every non-empty content of at most [INT_MAX]
    characters (beyond, the [int] counter can overflow) the word count of
    the document built from it is the number of maximal runs of characters
    that are not white space, where white space is: for the C++ [Document],
    the six characters space, tab, newline, vertical tab, form feed and
    carriage return; for the C [document_create], the three characters
    space, newline and tab. *)
Theorem word_count_is_run_count (content source : string) :
  content <> "" ->
  size content <= Machine.INT_MAX ->
  (exists d, Document_new content source = Ok d /\
             getWordCount d = run_count isspace content) /\
  (exists d, c_program.document_create true (Some content) source
             = ("", Some d) /\
             c_program.word_count d = run_count c_program.is_blank content) /\
  (forall c, isspace c
             = existsb (Ascii.eqb c)
                       [" "; "009"; "010"; "011"; "012"; "013"]%char) /\
  (forall c, c_program.is_blank c
             = existsb (Ascii.eqb c) [" "; "010"; "009"]%char).
Proof.
  intros Hne Hmax. apply empty_false in Hne.
  split; [|split; [|split]].
  - unfold Document_new. rewrite Hne. eexists. split; [reflexivity|].
    now apply countWords_run_count.
  - unfold c_program.document_create.
    assert ((size content =? 0) = false) as ->.
    { apply Z.eqb_neq. unfold size. destruct content; [discriminate|].
      cbn [String.length]. lia. }
    cbn [negb]. eexists. split; [reflexivity|]. cbn.
    rewrite count_scan_of_content by assumption. apply scan_run_count.
  - exact isspace_chars.
  - exact is_blank_chars.
Qed.

(** C3, an instance of the theorem. *)
Lemma word_count_is_run_count_witness :
  "two  words" <> "" /\
  size "two  words" <= Machine.INT_MAX /\
  (exists d, Document_new "two  words" "notes.txt" = Ok d /\
             getWordCount d = run_count isspace "two  words") /\
  (exists d, c_program.document_create true (Some "two  words") "notes.txt"
             = ("", Some d) /\
             c_program.word_count d
             = run_count c_program.is_blank "two  words").
Proof.
  split; [discriminate|]. split; [discriminate|].
  pose proof (word_count_is_run_count "two  words" "notes.txt") as H.
  destruct H as (H1 & H2 & _); [discriminate | discriminate |].
  split; assumption.
Defined.

(** C3, as stated, fails for the C++ [Document]: the carriage return
    separates two words there, while the text has a single run of characters
    other than space, tab and newline. *)
Lemma countWords_splits_at_carriage_return :
  a_cr_b <> "" /\
  Document_new a_cr_b "notes.txt"
  = Ok {| content_ := a_cr_b; source_ := "notes.txt"; wordCount_ := 2 |} /\
  run_count c_program.is_blank a_cr_b = 1.
Proof. split; [discriminate|]. split; reflexivity. Qed.

(** C4. For every source, building a document from the empty content
    fails: the C++ constructor throws [std::invalid_argument], and the C
    function reports the empty content on [stderr] and returns the null
    pointer, whether or not memory is available; no document is produced. *)
Theorem empty_content_rejected (source : string) :
  Document_new "" source
  = Throw (invalid_argument "Document content cannot be empty") /\
  (forall malloc_ok,
      c_program.document_create malloc_ok (Some "") source
      = (c_program.empty_content_message, None)).
Proof. split; [reflexivity|]. intros malloc_ok. reflexivity. Qed.

(** C6, as amended. The word count of every document that was built from
    a content of at most [INT_MAX] characters (beyond, the [int] counter can
    overflow) is at least 0, and it is at least 1 exactly when the content
    has a character that is not white space. *)
Theorem wordCount_positive_iff (content source : string) (d : Document) :
  Document_new content source = Ok d ->
  size content <= Machine.INT_MAX ->
  0 <= getWordCount d /\
  (1 <= getWordCount d <->
   exists c, In c (list_ascii_of_string content) /\ isspace c = false).
Proof.
  unfold Document_new. destruct (empty content); [discriminate|].
  intros H Hmax. injection H as <-. cbn [getWordCount wordCount_].
  rewrite countWords_of_content by assumption.
  rewrite <- scan_positive. lia.
Qed.

(** C6, an instance of the theorem. *)
Lemma wordCount_positive_iff_witness :
  Document_new "two  words" "notes.txt"
  = Ok {| content_ := "two  words"; source_ := "notes.txt";
          wordCount_ := 2 |} /\
  size "two  words" <= Machine.INT_MAX /\
  0 <= 2 /\
  (1 <= 2 <->
   exists c, In c (list_ascii_of_string "two  words") /\ isspace c = false).
Proof.
  split; [reflexivity|]. split; [discriminate|].
  apply (wordCount_positive_iff "two  words" "notes.txt"
           {| content_ := "two  words"; source_ := "notes.txt";
              wordCount_ := 2 |}).
  - reflexivity.
  - discriminate.
Defined.

(** C6, as stated, fails: a content made of one space is not empty, the
    document is built, and its word count is 0. *)
Lemma wordCount_zero_for_blank_content :
  Document_new " " "notes.txt"
  = Ok {| content_ := " "; source_ := "notes.txt"; wordCount_ := 0 |} /\
  getWordCount {| content_ := " "; source_ := "notes.txt"; wordCount_ := 0 |}
  < 1.
Proof. split; reflexivity. Qed.

End DocumentClaims.

(** ** The parser registry: the claims *)

Section RegistryClaims.

Import knowledge Registry.

(** C9. The text parser supports the MIME type "text/plain" and no other;
    dispatch fails with [UnsupportedMediaType] exactly when no registered
    parser supports the MIME type; so, with the text parser alone in the
    registry, dispatching "text/markdown" fails with
    [UnsupportedMediaType]. *)
Theorem dispatch_markdown_unsupported :
  (forall mimeType,
      supports TextParser mimeType = true <-> mimeType = "text/plain") /\
  (forall parsers mimeType,
      dispatch parsers mimeType = inl UnsupportedMediaType <->
      Forall (fun p => supports p mimeType = false) parsers) /\
  dispatch [TextParser] "text/markdown" = inl UnsupportedMediaType.
Proof.
  split; [|split].
  - intros mimeType. apply String.eqb_eq.
  - intros parsers mimeType.
    induction parsers as [|p parsers IH]; cbn [dispatch].
    + split; [constructor | reflexivity].
    + destruct (supports p mimeType) eqn:Hp.
      * split; [discriminate|]. intros H. inversion H; congruence.
      * rewrite IH. split; [now constructor | now inversion 1].
  - reflexivity.
Qed.

End RegistryClaims.

(** ** The C chunker *)

Section CChunker.

Import c_program.

Lemma take_all s : take (String.length s) s = s.
Proof. induction s as [|c s IH]; cbn; [reflexivity | now rewrite IH]. Qed.

Lemma drop_all s : drop (String.length s) s = "".
Proof. induction s as [|c s IH]; cbn; [reflexivity | exact IH]. Qed.

Lemma size_nonneg s : 0 <= size s.
Proof. unfold size. lia. Qed.

Lemma size_positive s : s <> "" -> 0 < size s.
Proof. destruct s; [congruence|]. unfold size. cbn [String.length]. lia. Qed.

(** Linear arithmetic once the bounds of the machine types are numerals. *)
Ltac machine_lia :=
  unfold Machine.INT_MAX, Machine.INT_MIN, Machine.SIZE_MODULUS in *;
  change (2 ^ 64) with 18446744073709551616 in *;
  change (2 ^ 32) with 4294967296 in *;
  change (2 ^ 31) with 2147483648 in *;
  lia.

Lemma to_size_t_small z :
  0 <= z < Machine.SIZE_MODULUS -> Machine.to_size_t z = z.
Proof. intros H. unfold Machine.to_size_t. now apply Z.mod_small. Qed.

Lemma to_int_small z :
  Machine.INT_MIN <= z <= Machine.INT_MAX -> Machine.to_int z = z.
Proof.
  intros H. unfold Machine.to_int.
  rewrite Z.mod_small; machine_lia.
Qed.

(** The outer loop of [chunk_text], one iteration unfolded. *)
Lemma c_chunk_loop_unfold chunk_size capacity st :
  chunk_loop chunk_size capacity st =
  if empty (start st) then Some (chunks st)
  else
    match chunk_len (start st) chunk_size with
    | None => None
    | Some len =>
        if chunk_count st <? capacity then
          match advance (start st) len with
          | None => None
          | Some start' =>
              chunk_loop chunk_size capacity
                {| start := start';
                   chunk_count := chunk_count st + 1;
                   chunks := chunks st ++ [strndup (start st) len] |}
          end
        else None
    end.
Proof.
  funelim (chunk_loop chunk_size capacity st);
    repeat match goal with
           | H : empty _ = _ |- _ => rewrite H
           | H : chunk_len _ _ = _ |- _ => rewrite H
           | H : (_ <? _) = _ |- _ => rewrite H
           | H : advance _ _ = _ |- _ => rewrite H
           end; reflexivity.
Qed.

(** A text shorter than the chunk size comes back as one chunk. *)
Lemma chunk_text_short text chunk_size :
  text <> "" -> size text < chunk_size <= Machine.INT_MAX ->
  chunk_text text chunk_size = Some [text].
Proof.
  intros Hne [Hlt Hmax].
  pose proof (size_positive text Hne) as Hpos.
  unfold chunk_text.
  rewrite (to_size_t_small chunk_size) by machine_lia.
  assert ((chunk_size =? 0) = false) as -> by (apply Z.eqb_neq; lia).
  rewrite (Z.div_small (size text) chunk_size) by lia.
  change (Machine.to_size_t
            (Machine.to_size_t (Machine.to_int (Machine.size_add 0 1)) * 8) / 8)
    with 1.
  rewrite c_chunk_loop_unfold. cbn [start chunk_count chunks].
  assert (empty text = false) as -> by (now apply empty_false).
  unfold chunk_len. rewrite (to_size_t_small chunk_size) by machine_lia.
  assert ((size text <? chunk_size) = true) as -> by (apply Z.ltb_lt; lia).
  rewrite to_int_small by machine_lia.
  change (0 <? 1) with true. cbv iota.
  unfold advance.
  assert (((0 <=? size text) && (size text <=? size text))%bool = true) as ->.
  { apply andb_true_iff. split; apply Z.leb_le; lia. }
  unfold strndup. rewrite to_size_t_small by machine_lia.
  rewrite Z.min_id. unfold size at 1 2. rewrite Nat2Z.id, take_all, drop_all.
  rewrite c_chunk_loop_unfold. reflexivity.
Qed.

Import Props.

Lemma drop_length n s : String.length (drop n s) = (String.length s - n)%nat.
Proof.
  revert n. induction s as [|c s IH]; intros [|n]; cbn; try reflexivity.
  apply IH.
Qed.

Lemma take_min n s : take (Nat.min n (String.length s)) s = take n s.
Proof.
  revert n. induction s as [|c s IH]; intros [|n]; cbn; try reflexivity.
  now rewrite IH.
Qed.

Lemma drop_min n s : drop (Nat.min n (String.length s)) s = drop n s.
Proof.
  revert n. induction s as [|c s IH]; intros [|n]; cbn; try reflexivity.
  apply IH.
Qed.

Lemma boundary_free_drop n s :
  boundary_free s = true -> boundary_free (drop n s) = true.
Proof.
  revert n. induction s as [|c s IH]; intros [|n] H; cbn; try assumption.
  cbn in H. apply andb_true_iff in H. apply IH, H.
Qed.

Lemma get_boundary_free s :
  boundary_free s = true ->
  forall n,
    match String.get n s with
    | Some c => (negb (Ascii.eqb c ".") && negb (Ascii.eqb c "010"))%bool = true
    | None => (String.length s <= n)%nat
    end.
Proof.
  induction s as [|c s IH]; intros H n; cbn [String.get String.length].
  - lia.
  - cbn in H. apply andb_true_iff in H. destruct H as [Hc Hs].
    destruct n as [|n]; [exact Hc|].
    specialize (IH Hs n). destruct (String.get n s); [exact IH | lia].
Qed.

(** In a text without boundary, up to and including the terminator. *)
Lemma char_at_boundary_free s i :
  boundary_free s = true -> 0 <= i <= size s ->
  exists c, char_at s i = Some c /\
            (negb (Ascii.eqb c ".") && negb (Ascii.eqb c "010"))%bool = true.
Proof.
  intros Hs Hi. unfold char_at.
  assert ((i <? 0) = false) as -> by (apply Z.ltb_ge; lia).
  pose proof (get_boundary_free s Hs (Z.to_nat i)) as Hg.
  destruct (String.get (Z.to_nat i) s) as [c|]; [now exists c|].
  assert ((i =? size s) = true) as -> by (apply Z.eqb_eq; unfold size in *; lia).
  exists zero. split; reflexivity.
Qed.

Lemma find_boundary_unfold start len :
  find_boundary start len =
  if 0 <? len then
    match char_at start len with
    | None => None
    | Some c =>
        if (negb (Ascii.eqb c ".") && negb (Ascii.eqb c "010"))%bool
        then find_boundary start (len - 1)
        else Some len
    end
  else Some len.
Proof.
  funelim (find_boundary start len);
    repeat match goal with
           | H : (_ <? _) = _ |- _ => rewrite H
           | H : char_at _ _ = _ |- _ => rewrite H
           end; reflexivity.
Qed.

(** Without a boundary in sight the search runs down to zero. *)
Lemma find_boundary_free s :
  boundary_free s = true ->
  forall n, Z.of_nat n <= size s -> find_boundary s (Z.of_nat n) = Some 0.
Proof.
  intros Hs. induction n as [|n IH]; intros Hn;
    rewrite find_boundary_unfold.
  - reflexivity.
  - assert ((0 <? Z.of_nat (S n)) = true) as -> by (apply Z.ltb_lt; lia).
    destruct (char_at_boundary_free s (Z.of_nat (S n)) Hs) as (c & -> & ->);
      [lia|].
    replace (Z.of_nat (S n) - 1) with (Z.of_nat n) by lia.
    apply IH. lia.
Qed.

Lemma chunk_len_free s chunk_size :
  boundary_free s = true ->
  0 < chunk_size <= Machine.INT_MAX -> size s <= Machine.INT_MAX ->
  chunk_len s chunk_size = Some (Z.min (size s) chunk_size).
Proof.
  intros Hs Hc Hmax. pose proof (size_nonneg s) as H0.
  unfold chunk_len. rewrite (to_size_t_small chunk_size) by machine_lia.
  destruct (size s <? chunk_size) eqn:E.
  - apply Z.ltb_lt in E. rewrite to_int_small by machine_lia.
    f_equal. lia.
  - apply Z.ltb_ge in E.
    rewrite <- (Z2Nat.id chunk_size) at 1 by lia.
    rewrite find_boundary_free by (assumption || lia).
    cbn. f_equal. lia.
Qed.

Lemma strndup_take s len :
  0 <= len < Machine.SIZE_MODULUS -> strndup s len = take (Z.to_nat len) s.
Proof.
  intros H. unfold strndup. rewrite to_size_t_small by assumption.
  unfold size. rewrite <- (Z2Nat.id len) at 1 by lia.
  rewrite <- Nat2Z.inj_min, Nat2Z.id. apply take_min.
Qed.

Lemma advance_drop s len :
  0 <= len <= size s -> advance s len = Some (drop (Z.to_nat len) s).
Proof.
  intros H. unfold advance.
  assert (((0 <=? len) && (len <=? size s))%bool = true) as ->;
    [|reflexivity].
  apply andb_true_iff. split; apply Z.leb_le; lia.
Qed.

Lemma pieces_upto_count fuel n s :
  (0 < n)%nat ->
  Z.of_nat (List.length (pieces_upto fuel n s))
  <= (size s + Z.of_nat n - 1) / Z.of_nat n.
Proof.
  intros Hn. revert s. induction fuel as [|fuel IH]; intros s.
  - cbn. apply Z.div_pos; pose proof (size_nonneg s); lia.
  - destruct s as [|c s].
    + cbn. apply Z.div_pos; unfold size; cbn; lia.
    + cbn [pieces_upto List.length]. specialize (IH (drop n (String c s))).
      assert (size (drop n (String c s))
              = Z.max 0 (size (String c s) - Z.of_nat n)) as Hd
          by (unfold size; rewrite drop_length; lia).
      rewrite Hd in IH. pose proof (size_positive (String c s)) as Hp.
      specialize (Hp ltac:(discriminate)).
      destruct (Z.le_gt_cases (Z.of_nat n) (size (String c s))) as [Hle|Hgt].
      * rewrite Z.max_r in IH by lia.
        replace (size (String c s) + Z.of_nat n - 1)
          with (size (String c s) - Z.of_nat n + Z.of_nat n - 1
                + 1 * Z.of_nat n) by lia.
        rewrite Z.div_add by lia. lia.
      * rewrite Z.max_l in IH by lia.
        replace (0 + Z.of_nat n - 1) with (Z.of_nat n - 1) in IH by lia.
        rewrite Z.div_small in IH by lia.
        assert (1 <= (size (String c s) + Z.of_nat n - 1) / Z.of_nat n).
        { apply Z.div_le_lower_bound; lia. }
        lia.
Qed.

(** The outer loop on a text without boundary: it emits the pieces of
    [chunk_size] characters, as long as the array has room for them. *)
Lemma c_chunk_loop_pieces chunk_size capacity :
  0 < chunk_size <= Machine.INT_MAX ->
  forall fuel s count chunks0,
    (String.length s <= fuel)%nat ->
    boundary_free s = true ->
    size s <= Machine.INT_MAX ->
    count + Z.of_nat (List.length
                        (pieces_upto fuel (Z.to_nat chunk_size) s))
    <= capacity ->
    chunk_loop chunk_size capacity
      {| start := s; chunk_count := count; chunks := chunks0 |}
    = Some (chunks0 ++ pieces_upto fuel (Z.to_nat chunk_size) s)%list.
Proof.
  intros Hc. induction fuel as [|fuel IH];
    intros s count chunks0 Hlen Hs Hmax Hroom.
  - destruct s; [|cbn in Hlen; lia].
    rewrite c_chunk_loop_unfold. cbn. now rewrite app_nil_r.
  - destruct s as [|c s].
    + rewrite c_chunk_loop_unfold. cbn. now rewrite app_nil_r.
    + cbn [pieces_upto List.length] in Hroom |- *.
      assert (empty (String c s) = false) as Hempty by reflexivity.
      assert (String.length (String c s) = S (String.length s)) as Hsucc
          by reflexivity.
      remember (String c s) as text eqn:Htext. clear Htext.
      assert (0 < size text) as Hpos by (unfold size; lia).
      rewrite c_chunk_loop_unfold. cbn [start chunk_count chunks].
      rewrite Hempty.
      rewrite chunk_len_free by assumption.
      assert ((count <? capacity) = true) as -> by (apply Z.ltb_lt; lia).
      rewrite advance_drop by lia.
      rewrite strndup_take by machine_lia.
      assert (Z.to_nat (Z.min (size text) chunk_size)
              = Nat.min (Z.to_nat chunk_size) (String.length text)) as ->
          by (unfold size; lia).
      rewrite take_min, drop_min.
      rewrite IH.
      * now rewrite <- app_assoc.
      * rewrite drop_length. lia.
      * now apply boundary_free_drop.
      * unfold size in *. rewrite drop_length. lia.
      * lia.
Qed.

(** [chunk_text] on a text without boundary. *)
Lemma chunk_text_pieces text chunk_size :
  boundary_free text = true ->
  0 < chunk_size <= Machine.INT_MAX ->
  size text < Machine.INT_MAX ->
  chunk_text text chunk_size = Some (pieces (Z.to_nat chunk_size) text).
Proof.
  intros Hs Hc Hmax. pose proof (size_nonneg text) as H0.
  unfold chunk_text.
  rewrite (to_size_t_small chunk_size) by machine_lia.
  assert ((chunk_size =? 0) = false) as -> by (apply Z.eqb_neq; lia).
  assert (0 <= size text / chunk_size <= size text) as Hq.
  { split; [apply Z.div_pos; lia|].
    apply Z.div_le_upper_bound; [lia|]. nia. }
  unfold Machine.size_add.
  rewrite (to_size_t_small (size text / chunk_size + 1)) by machine_lia.
  rewrite to_int_small by machine_lia.
  rewrite (to_size_t_small (size text / chunk_size + 1)) by machine_lia.
  rewrite to_size_t_small by machine_lia.
  rewrite Z.div_mul by lia.
  unfold pieces.
  rewrite (c_chunk_loop_pieces chunk_size _ Hc (String.length text));
    try assumption; try lia; [reflexivity|]. cbn [Z.add].
  pose proof (pieces_upto_count (String.length text) (Z.to_nat chunk_size)
                text ltac:(lia)) as Hcount.
  rewrite Z2Nat.id in Hcount by lia.
  assert ((size text + chunk_size - 1) / chunk_size
          <= size text / chunk_size + 1).
  { replace (size text / chunk_size + 1)
      with ((size text + 1 * chunk_size) / chunk_size)
      by (rewrite Z.div_add by lia; lia).
    apply Z.div_le_mono; lia. }
  lia.
Qed.

Lemma pieces_several n s :
  (0 < n < String.length s)%nat -> (1 < List.length (pieces n s))%nat.
Proof.
  intros Hn. unfold pieces.
  destruct s as [|c s]; [cbn in Hn; lia|].
  pose proof (drop_length n (String c s)) as Hd.
  cbn [String.length pieces_upto List.length] in *.
  destruct (String.length s) as [|m]; [lia|].
  destruct (drop n (String c s)) as [|d r].
  - cbn [String.length] in Hd. lia.
  - cbn [pieces_upto List.length]. lia.
Qed.

End CChunker.

(** ** A text without full stop: the claim *)

Section SingleSentenceClaim.

Import Stream knowledge Props.

(** C7, as amended. For every non-empty text without a full stop and every
    chunk size greater than zero: the C++ [chunk] returns exactly one chunk,
    equal to the text, whatever the length of the text; the C [chunk_text]
    returns exactly one chunk, equal to the text, when the text is shorter
    than the chunk size, and a text that has no newline either is cut by it
    into consecutive pieces of [chunk_size] characters, which are several as
    soon as the text is longer than the chunk size. *)
Theorem single_chunk_without_full_stop (text : string) :
  text <> "" -> dot_free text = true ->
  (forall self, 0 < chunkSize_ self -> chunk self text = [text]) /\
  (forall chunk_size,
      size text < chunk_size <= Machine.INT_MAX ->
      c_program.chunk_text text chunk_size = Some [text]) /\
  (forall chunk_size,
      0 < chunk_size <= Machine.INT_MAX ->
      size text < Machine.INT_MAX ->
      boundary_free text = true ->
      c_program.chunk_text text chunk_size
      = Some (pieces (Z.to_nat chunk_size) text) /\
      (chunk_size < size text ->
       (1 < List.length (pieces (Z.to_nat chunk_size) text))%nat)).
Proof.
  intros Hne Hdot. split; [|split].
  - intros self _. unfold chunk. rewrite chunk_loop_fold.
    rewrite sentences_dot_free by assumption. cbn [fold_left].
    apply empty_false in Hne. unfold chunk_body. rewrite Hne. cbn [negb].
    destruct (_ <? _); cbn; rewrite Hne; reflexivity.
  - intros chunk_size H. now apply chunk_text_short.
  - intros chunk_size Hc Hmax Hfree. split.
    + now apply chunk_text_pieces.
    + intros Hlong. apply pieces_several. unfold size in Hlong. lia.
Qed.

(** C7, an instance of the theorem: six letters, with chunk sizes 3 and
    7. *)
Lemma single_chunk_without_full_stop_witness :
  "abcdef" <> "" /\ dot_free "abcdef" = true /\
  chunk {| chunkSize_ := 3 |} "abcdef" = ["abcdef"] /\
  c_program.chunk_text "abcdef" 7 = Some ["abcdef"].
Proof.
  split; [discriminate|]. split; [reflexivity|].
  pose proof (single_chunk_without_full_stop "abcdef") as H.
  destruct H as (Hcpp & Hc & _); [discriminate | reflexivity |].
  split.
  - apply (Hcpp {| chunkSize_ := 3 |}). reflexivity.
  - apply (Hc 7). split; [reflexivity | discriminate].
Defined.

(** C7, as stated, fails for the C [chunk_text]: six letters without a full
    stop and a chunk size of 3 give two chunks. *)
Lemma chunk_text_cuts_long_sentence :
  "abcdef" <> "" /\ dot_free "abcdef" = true /\ 0 < 3 /\
  c_program.chunk_text "abcdef" 3 = Some ["abc"; "def"].
Proof.
  split; [discriminate|]. repeat split.
Qed.

End SingleSentenceClaim.

(** Linear arithmetic with the bounds of the machine types and the powers
    of two of the statements below as numerals. *)
Ltac word_lia :=
  unfold Machine.INT_MAX, Machine.INT_MIN, Machine.SIZE_MODULUS in *;
  change (2 ^ 64) with 18446744073709551616 in *;
  change (2 ^ 63) with 9223372036854775808 in *;
  change (2 ^ 62) with 4611686018427387904 in *;
  change (2 ^ 32) with 4294967296 in *;
  change (2 ^ 31) with 2147483648 in *;
  lia.

(** ** The C++ chunker: what else the loop maintains *)

Section ChunkerBounds.

Import Stream knowledge Props.

Variable self : TextChunker.

Lemma size_append a b : size (a ++ b) = size a + size b.
Proof.
  unfold size. induction a as [|c a IH]; cbn [append String.length]; lia.
Qed.

Lemma chunk_finish text :
  chunk self text
  = finish (fold_left (fun st sentence => chunk_body self sentence st)
                      (sentences text)
                      {| chunks := []; currentChunk := "" |}).
Proof. unfold chunk, finish. now rewrite chunk_loop_fold. Qed.

Lemma cons_head_nonempty c l : cons_head c l <> [].
Proof. destruct l; discriminate. Qed.

Lemma sentences_nil text : sentences text = [] -> text = "".
Proof.
  destruct text as [|c s]; [reflexivity|]. cbn [sentences].
  destruct (Ascii.eqb c "."); [discriminate|].
  intros H. now apply cons_head_nonempty in H.
Qed.

Lemma sentences_all_dot_free text :
  Forall (fun f => dot_free f = true) (sentences text).
Proof.
  induction text as [|c s IH]; [constructor|]. cbn [sentences].
  destruct (Ascii.eqb c ".") eqn:Hc; [now constructor|].
  destruct (sentences s) as [|p ps]; cbn [cons_head].
  - constructor; [|constructor]. cbn. now rewrite Hc.
  - inversion IH; subst. constructor; [|assumption]. cbn. now rewrite Hc.
Qed.

(** The sentences, with the full stops put back between them, are the
    text; a full stop that ends the text closes the last sentence. *)
Lemma sentences_rejoin text :
  String.concat "." (sentences text)
  ++ (if ends_with_dot text then "." else "") = text.
Proof.
  induction text as [|c s IH]; [reflexivity|].
  cbn [sentences ends_with_dot].
  destruct s as [|d s].
  - cbn. destruct (Ascii.eqb_spec c "."); [now subst | reflexivity].
  - destruct (Ascii.eqb_spec c ".") as [->|Hc].
    + destruct (sentences (String d s)) as [|p ps] eqn:E.
      * apply sentences_nil in E. discriminate.
      * cbn [String.concat]. cbn [append]. f_equal. exact IH.
    + destruct (sentences (String d s)) as [|p ps] eqn:E.
      * apply sentences_nil in E. discriminate.
      * cbn [cons_head]. rewrite <- IH at 2.
        destruct ps; reflexivity.
Qed.

Lemma weight_app l1 l2 : weight (l1 ++ l2) = weight l1 + weight l2.
Proof. induction l1 as [|f l1 IH]; cbn [app weight]; lia. Qed.

Lemma weight_nonneg l : 0 <= weight l.
Proof.
  induction l as [|f l IH]; cbn [weight]; [lia|].
  pose proof (Zle_0_nat (String.length f)). unfold size. lia.
Qed.

Lemma weight_sentences text : weight (sentences text) <= 2 * size text + 2.
Proof.
  induction text as [|c s IH]; [cbn; lia|]. cbn [sentences].
  assert (size (String c s) = size s + 1) as ->
      by (unfold size; cbn [String.length]; lia).
  pose proof (size_nonneg s) as Hs.
  destruct (Ascii.eqb c ".");
    [cbn [weight]; change (size "") with 0; lia|].
  destruct (sentences s) as [|p ps]; cbn [cons_head weight] in *.
  - change (size (String c "")) with 1. lia.
  - assert (size (String c p) = size p + 1) as ->
        by (unfold size; cbn [String.length]; lia).
    lia.
Qed.

Lemma chunk_body_size sentence st :
  size (currentChunk (chunk_body self sentence st))
  <= size (currentChunk st) + size sentence + 2.
Proof.
  pose proof (size_nonneg (currentChunk st)) as Hc.
  pose proof (size_nonneg sentence) as Hs.
  unfold chunk_body.
  destruct (empty sentence); cbn [negb]; [lia|].
  destruct (_ <? _); destruct (empty (currentChunk st)) eqn:E;
    cbn [negb flush append_current currentChunk empty];
    rewrite ?E; cbn [negb append_current currentChunk];
    rewrite ?size_append; change (size ". ") with 2;
    change (size "") with 0; lia.
Qed.

(** Induction along the loop of [chunk] for a text whose sentences leave
    the [size_t] sum of the test far from wrapping around. *)
Lemma fold_body_ind (all : list string)
      (I : list string -> chunk_state -> Prop) :
  (forall done st s,
      In s all -> I done st ->
      0 <= size (currentChunk st) + size s <= 2 ^ 63 ->
      I (done ++ [s])%list (chunk_body self s st)) ->
  forall ss done st,
    incl ss all -> I done st ->
    size (currentChunk st) + weight ss <= 2 ^ 63 ->
    I (done ++ ss)%list
      (fold_left (fun st sentence => chunk_body self sentence st) ss st).
Proof.
  intros Hstep. induction ss as [|s ss IH]; intros done st Hincl HI Hroom.
  - now rewrite app_nil_r.
  - cbn [fold_left weight] in *.
    pose proof (weight_nonneg ss) as Hw.
    pose proof (size_nonneg (currentChunk st)) as Hc.
    pose proof (size_nonneg s) as Hs.
    pose proof (chunk_body_size s st) as Hb.
    replace (done ++ s :: ss)%list with ((done ++ [s]) ++ ss)%list
      by (now rewrite <- app_assoc).
    apply IH.
    + intros x Hx. apply Hincl. now right.
    + apply Hstep; [apply Hincl; now left | assumption | lia].
    + lia.
Qed.

Lemma chunk_ind (I : list string -> chunk_state -> Prop) text :
  size text < 2 ^ 62 ->
  I [] {| chunks := []; currentChunk := "" |} ->
  (forall done st s,
      In s (sentences text) -> I done st ->
      0 <= size (currentChunk st) + size s <= 2 ^ 63 ->
      I (done ++ [s])%list (chunk_body self s st)) ->
  I (sentences text)
    (fold_left (fun st sentence => chunk_body self sentence st)
               (sentences text)
               {| chunks := []; currentChunk := "" |}).
Proof.
  intros Hsize Hinit Hstep.
  apply (fold_body_ind (sentences text) I Hstep (sentences text) []).
  - apply incl_refl.
  - exact Hinit.
  - pose proof (weight_sentences text). cbn [currentChunk].
    change (size "") with 0. change (2 ^ 63) with (2 * 2 ^ 62). lia.
Qed.

Lemma size_add_small a b :
  0 <= a + b <= 2 ^ 63 -> Machine.size_add a b = a + b.
Proof.
  intros H. unfold Machine.size_add. apply to_size_t_small. word_lia.
Qed.

Lemma filter_sentences_nil text :
  filter nonempty (sentences text) = [] <-> all_dots text = true.
Proof.
  induction text as [|c s IH]; [split; reflexivity|].
  cbn [sentences all_dots]. destruct (Ascii.eqb c "."); cbn [andb].
  - exact IH.
  - split; [|discriminate].
    destruct (sentences s); cbn; discriminate.
Qed.

(** For every text and every chunk size, the chunks, once the inserted
    separators are taken out, are the non-empty sentences of the text in
    their order: [chunk] loses nothing but full stops and empty sentences,
    and it repeats and reorders nothing. The sentences are the pieces
    between the full stops: joined by full stops they are the text. *)
Theorem chunk_keeps_sentences (text : string) :
  flat_map unjoin (chunk self text) = filter nonempty (sentences text) /\
  String.concat "." (sentences text)
  ++ (if ends_with_dot text then "." else "") = text.
Proof.
  split; [|apply sentences_rejoin].
  destruct (chunk_groups self text) as (groups & -> & Hne & Hcat).
  rewrite flat_map_unjoin_join; [assumption.. |].
  rewrite Hcat. apply Forall_forall. intros f Hf.
  apply filter_In in Hf. destruct Hf as [Hf _].
  pose proof (sentences_all_dot_free text) as Hall.
  rewrite Forall_forall in Hall. now apply Hall.
Qed.

(** [chunk] returns no chunk exactly for the texts that hold nothing but
    full stops (the empty text among them), whatever the chunk size. *)
Theorem chunk_nil_iff_all_dots (text : string) :
  chunk self text = [] <-> all_dots text = true.
Proof.
  rewrite <- filter_sentences_nil.
  destruct (chunk_groups self text) as (groups & -> & Hne & <-).
  destruct Hne as [|g groups Hg _]; [split; reflexivity|].
  split; [discriminate|].
  destruct g; [contradiction | discriminate].
Qed.

(** With a chunk size that is not negative, every chunk is a sentence of
    the text on its own or is at most two characters longer than the chunk
    size: the test that decides to start a new chunk leaves the separator
    out of its sum. (Texts of less than 2^62 characters, so that the sum
    does not wrap around.) *)
Theorem chunk_size_bound (text : string) :
  0 <= chunkSize_ self <= Machine.INT_MAX ->
  size text < 2 ^ 62 ->
  Forall (fun c => In c (sentences text) \/ size c <= chunkSize_ self + 2)
         (chunk self text).
Proof.
  intros Hcs Hsize. rewrite chunk_finish.
  set (P := fun c => In c (sentences text) \/ size c <= chunkSize_ self + 2).
  assert (Forall P (chunks (fold_left
            (fun st sentence => chunk_body self sentence st)
            (sentences text) {| chunks := []; currentChunk := "" |})) /\
          (empty (currentChunk (fold_left
            (fun st sentence => chunk_body self sentence st)
            (sentences text) {| chunks := []; currentChunk := "" |})) = false ->
           P (currentChunk (fold_left
            (fun st sentence => chunk_body self sentence st)
            (sentences text) {| chunks := []; currentChunk := "" |}))))
    as [Hchunks Hcur].
  { apply (chunk_ind (fun _ st =>
             Forall P (chunks st) /\
             (empty (currentChunk st) = false -> P (currentChunk st))));
      [assumption | split; [constructor | discriminate] |].
    intros _ st s Hin [Hch Hc] Hsum. unfold chunk_body.
    destruct (empty s) eqn:Es; cbn [negb]; [now split|].
    rewrite size_add_small by assumption.
    rewrite to_size_t_small by word_lia.
    destruct (chunkSize_ self <? size (currentChunk st) + size s) eqn:Hlt;
      destruct (empty (currentChunk st)) eqn:Ec;
      cbn [negb flush append_current currentChunk chunks empty];
      rewrite ?Ec; cbn [negb append_current currentChunk chunks].
    - apply empty_true in Ec. rewrite Ec. cbn [append].
      split; [assumption | intros _; now left].
    - split; [|intros _; now left].
      apply Forall_app. split; [assumption|]. constructor; [|constructor].
      now apply Hc.
    - apply empty_true in Ec. rewrite Ec. cbn [append].
      split; [assumption | intros _; now left].
    - split; [assumption|]. intros _. right.
      apply Z.ltb_ge in Hlt. rewrite !size_append.
      change (size ". ") with 2. lia. }
  unfold finish. destruct (empty (currentChunk _)) eqn:E; cbn [negb].
  - assumption.
  - apply Forall_app. split; [assumption|]. constructor; [|constructor].
    now apply Hcur.
Qed.

(** A negative chunk size never starts a new chunk: converted to [size_t]
    for the test it is larger than any sum of lengths, so all the non-empty
    sentences are joined into one chunk, however long. *)
Theorem chunk_negative_size_single_chunk (text : string) :
  Machine.INT_MIN <= chunkSize_ self < 0 ->
  size text < 2 ^ 62 ->
  chunk self text
  = match filter nonempty (sentences text) with
    | [] => []
    | f :: fs => [join (f :: fs)]
    end.
Proof.
  intros Hcs Hsize. rewrite chunk_finish.
  assert (forall st,
             chunks st = [] /\
             currentChunk st = join (filter nonempty (sentences text)) ->
             finish st = match filter nonempty (sentences text) with
                         | [] => []
                         | f :: fs => [join (f :: fs)]
                         end) as Hfinish.
  { intros st [Hch Hcur]. unfold finish. rewrite Hch, Hcur.
    destruct (filter nonempty (sentences text)) as [|f fs] eqn:E;
      [reflexivity|].
    rewrite join_nonempty; [reflexivity | discriminate |].
    rewrite <- E. apply Forall_forall. intros x Hx.
    apply filter_In in Hx. tauto. }
  apply Hfinish.
  apply (chunk_ind (fun done st =>
           chunks st = [] /\
           currentChunk st = join (filter nonempty done)));
    [assumption | now split |].
  intros done st s _ [Hch Hcur] Hsum.
  rewrite filter_app. cbn [filter]. fold (nonempty s).
  unfold chunk_body. unfold nonempty at 2.
  destruct (empty s) eqn:Es; cbn [negb]; [now rewrite app_nil_r|].
  rewrite size_add_small by assumption.
  assert (Machine.to_size_t (chunkSize_ self) = 2 ^ 64 + chunkSize_ self)
    as ->.
  { unfold Machine.to_size_t, Machine.SIZE_MODULUS.
    rewrite <- (Z.mod_add _ 1) by discriminate.
    rewrite Z.mod_small; word_lia. }
  assert ((2 ^ 64 + chunkSize_ self
           <? size (currentChunk st) + size s) = false) as ->
      by (apply Z.ltb_ge; word_lia).
  destruct (empty (currentChunk st)) eqn:Ec;
    cbn [negb append_current currentChunk chunks];
    (split; [assumption|]).
  - rewrite Hcur in Ec. apply join_empty in Ec.
    + rewrite Hcur, Ec. reflexivity.
    + apply Forall_forall. intros x Hx. apply filter_In in Hx. tauto.
  - rewrite join_snoc.
    + now rewrite Hcur.
    + intros E. rewrite Hcur, E in Ec. discriminate.
Qed.

(** With the chunk size 0 every non-empty sentence of the text is a chunk
    of its own: the chunks are the non-empty sentences, in order. *)
Theorem chunk_zero_size_one_sentence_each (text : string) :
  chunkSize_ self = 0 ->
  size text < 2 ^ 62 ->
  chunk self text = filter nonempty (sentences text).
Proof.
  intros Hcs Hsize. rewrite chunk_finish.
  apply (chunk_ind (fun done st => finish st = filter nonempty done));
    [assumption | reflexivity |].
  intros done st s _ Hfin Hsum.
  rewrite filter_app. cbn [filter]. fold (nonempty s).
  unfold chunk_body. unfold nonempty at 2.
  destruct (empty s) eqn:Es; cbn [negb]; [now rewrite app_nil_r|].
  rewrite size_add_small by assumption. rewrite Hcs.
  change (Machine.to_size_t 0) with 0.
  assert ((0 <? size (currentChunk st) + size s) = true) as ->.
  { apply Z.ltb_lt. pose proof (size_nonneg (currentChunk st)).
    assert (0 < size s); [|lia].
    apply size_positive. now apply empty_false. }
  rewrite <- Hfin. unfold finish. destruct st as [emitted current].
  cbn [currentChunk chunks].
  destruct current as [|c current];
    cbn [empty negb flush append_current currentChunk chunks append];
    now rewrite Es.
Qed.

End ChunkerBounds.

(** Instances of the theorems above. *)

Section ChunkerBoundsInstances.

Import Stream knowledge Props.

Lemma chunk_size_bound_witness :
  (0 <= chunkSize_ {| chunkSize_ := 5 |} <= Machine.INT_MAX) /\
  size "abc.de.fgh." < 2 ^ 62 /\
  knowledge.chunk {| chunkSize_ := 5 |} "abc.de.fgh." = ["abc. de"; "fgh"] /\
  Forall (fun c => In c (Props.sentences "abc.de.fgh.")
                   \/ size c <= chunkSize_ {| chunkSize_ := 5 |} + 2)
         (knowledge.chunk {| chunkSize_ := 5 |} "abc.de.fgh.").
Proof.
  split; [split; discriminate|]. split; [reflexivity|].
  split; [reflexivity|].
  apply (chunk_size_bound {| chunkSize_ := 5 |} "abc.de.fgh.").
  - split; discriminate.
  - reflexivity.
Defined.

Lemma chunk_negative_size_single_chunk_witness :
  (Machine.INT_MIN <= chunkSize_ {| chunkSize_ := -1 |} < 0) /\
  size "abc.de.fgh." < 2 ^ 62 /\
  knowledge.chunk {| chunkSize_ := -1 |} "abc.de.fgh."
  = match filter Props.nonempty (Props.sentences "abc.de.fgh.") with
    | [] => []
    | f :: fs => [Props.join (f :: fs)]
    end.
Proof.
  split; [split; [discriminate | reflexivity]|]. split; [reflexivity|].
  apply (chunk_negative_size_single_chunk {| chunkSize_ := -1 |}
           "abc.de.fgh.").
  - split; [discriminate | reflexivity].
  - reflexivity.
Defined.

Lemma chunk_zero_size_one_sentence_each_witness :
  chunkSize_ {| chunkSize_ := 0 |} = 0 /\
  size "abc.de.fgh." < 2 ^ 62 /\
  knowledge.chunk {| chunkSize_ := 0 |} "abc.de.fgh."
  = filter Props.nonempty (Props.sentences "abc.de.fgh.").
Proof.
  split; [reflexivity|]. split; [reflexivity|].
  apply (chunk_zero_size_one_sentence_each {| chunkSize_ := 0 |}
           "abc.de.fgh."); reflexivity.
Defined.

End ChunkerBoundsInstances.

(** ** Word counts: bounds and agreement of the two programs *)

Section WordCountBounds.

Import Stream knowledge Props.

Lemma scan_half ws s :
  (2 * scan ws s false <= String.length s + 1)%nat /\
  (2 * scan ws s true <= String.length s)%nat.
Proof.
  induction s as [|c s [IH1 IH2]]; cbn [scan String.length]; [lia|].
  destruct (ws c); lia.
Qed.

(** On a content of at most [INT_MAX] characters, both word counts are at
    least 0 and at most half the length of the content, rounded up: words
    need a white space between them. The [int] counters therefore do not
    overflow on such a content. *)
Theorem word_count_at_most_half (content : string) :
  size content <= Machine.INT_MAX ->
  (0 <= countWords content /\ 2 * countWords content <= size content + 1) /\
  (0 <= c_program.count_scan content false 0 /\
   2 * c_program.count_scan content false 0 <= size content + 1).
Proof.
  intros Hmax.
  rewrite countWords_of_content, count_scan_of_content by assumption.
  unfold size.
  pose proof (scan_half isspace content) as [H1 _].
  pose proof (scan_half c_program.is_blank content) as [H2 _].
  lia.
Qed.

Lemma word_count_at_most_half_witness :
  size "one two  three" <= Machine.INT_MAX /\
  (0 <= countWords "one two  three" /\
   2 * countWords "one two  three" <= size "one two  three" + 1) /\
  (0 <= c_program.count_scan "one two  three" false 0 /\
   2 * c_program.count_scan "one two  three" false 0
   <= size "one two  three" + 1).
Proof.
  split; [discriminate|].
  apply (word_count_at_most_half "one two  three"). discriminate.
Defined.

Lemma scan_ext ws1 ws2 s :
  (forall c, In c (list_ascii_of_string s) -> ws1 c = ws2 c) ->
  forall in_word, scan ws1 s in_word = scan ws2 s in_word.
Proof.
  induction s as [|c s IH]; intros H in_word; [reflexivity|].
  cbn [scan]. rewrite (H c) by now left.
  assert (forall d, In d (list_ascii_of_string s) -> ws1 d = ws2 d) as H'
      by (intros d Hd; apply H; now right).
  now rewrite !(IH H').
Qed.

Lemma isspace_is_blank c :
  isspace c
  = (c_program.is_blank c
     || existsb (Ascii.eqb c) ["011"; "012"; "013"]%char)%bool.
Proof. destruct c as [[] [] [] [] [] [] [] []]; reflexivity. Qed.

Lemma plain_blanks_in s :
  plain_blanks s = true ->
  forall c, In c (list_ascii_of_string s) -> isspace c = c_program.is_blank c.
Proof.
  induction s as [|d s IH]; intros H c Hc; [destruct Hc|].
  cbn [plain_blanks] in H. apply andb_true_iff in H. destruct H as [Hd Hs].
  destruct Hc as [<- | Hc]; [|now apply IH].
  rewrite isspace_is_blank. apply negb_true_iff in Hd. rewrite Hd.
  apply orb_false_r.
Qed.

(** On a content that a C string can hold (no NUL character), of at most
    [INT_MAX] characters and without vertical tab, form feed and carriage
    return, the C++ [countWords] and the scan of the C [document_create]
    count the same number of words. *)
Theorem word_counts_agree (content : string) :
  nul_free content = true ->
  size content <= Machine.INT_MAX ->
  plain_blanks content = true ->
  countWords content = c_program.count_scan content false 0.
Proof.
  intros _ Hmax H.
  rewrite countWords_of_content, count_scan_of_content by assumption.
  now rewrite (scan_ext isspace c_program.is_blank content
                 (plain_blanks_in content H)).
Qed.

Lemma word_counts_agree_witness :
  nul_free "one two  three" = true /\
  size "one two  three" <= Machine.INT_MAX /\
  plain_blanks "one two  three" = true /\
  countWords "one two  three"
  = c_program.count_scan "one two  three" false 0.
Proof.
  split; [reflexivity|]. split; [discriminate|]. split; [reflexivity|].
  apply (word_counts_agree "one two  three");
    [reflexivity | discriminate | reflexivity].
Defined.

End WordCountBounds.

(** ** Building documents: failure and what is stored *)

Section DocumentBuilding.

Import Stream knowledge Props.

(** [document_create] returns the null pointer exactly when the content is
    the null pointer or the empty string, or when the allocation fails; it
    prints its message exactly in the first two cases, so a failed
    allocation is silent. *)
Theorem document_create_null_iff (malloc_ok : bool)
        (content : option string) (source : string) :
  (snd (c_program.document_create malloc_ok content source) = None <->
   content = None \/ content = Some "" \/ malloc_ok = false) /\
  (fst (c_program.document_create malloc_ok content source)
   = c_program.empty_content_message <->
   content = None \/ content = Some "").
Proof.
  unfold c_program.document_create.
  destruct content as [[|c s]|]; cbn [size String.length].
  - cbn. split; split; auto.
  - assert ((size (String c s) =? 0) = false) as ->
        by (apply Z.eqb_neq; unfold size; cbn [String.length]; lia).
    destruct malloc_ok; cbn; split; split;
      try discriminate; auto;
      intros [H | H]; try discriminate; destruct H; discriminate.
  - cbn. split; split; auto.
Qed.

(** A document built by [document_create] holds the content and the source
    it was given, and, for a content of at most [INT_MAX] characters (beyond,
    the [int] counter can overflow), its word count is at least 1 exactly
    when the content has a character other than space, newline and tab. *)
Theorem document_create_stores (content source : string)
        (d : c_program.Document) :
  c_program.document_create true (Some content) source = ("", Some d) ->
  c_program.content d = content /\
  c_program.source d = source /\
  (size content <= Machine.INT_MAX ->
   (1 <= c_program.word_count d <->
    exists c, In c (list_ascii_of_string content) /\
              c_program.is_blank c = false)).
Proof.
  unfold c_program.document_create.
  destruct (size content =? 0); [discriminate|]. cbn [negb].
  intros H. injection H as <-. cbn.
  split; [reflexivity|]. split; [reflexivity|]. intros Hmax.
  rewrite count_scan_of_content by assumption.
  rewrite <- scan_positive. lia.
Qed.

Lemma document_create_stores_witness :
  c_program.document_create true (Some "This is a test document.") "test.txt"
  = ("", Some {| c_program.content := "This is a test document.";
                 c_program.source := "test.txt";
                 c_program.word_count := 5 |}) /\
  size "This is a test document." <= Machine.INT_MAX /\
  (1 <= 5 <->
   exists c, In c (list_ascii_of_string "This is a test document.") /\
             c_program.is_blank c = false).
Proof.
  split; [reflexivity|]. split; [discriminate|].
  pose proof (document_create_stores "This is a test document." "test.txt"
           {| c_program.content := "This is a test document.";
              c_program.source := "test.txt";
              c_program.word_count := 5 |} eq_refl) as H.
  destruct H as (_ & _ & H). apply H. discriminate.
Defined.

(** [TextParser::parse] fails, with [std::invalid_argument], exactly when
    the buffer is empty, whatever the file name; otherwise the document it
    returns gives back the buffer as its content and the file name as its
    source, and, for a buffer of at most [INT_MAX] characters (beyond, the
    [int] counter can overflow), counts the maximal runs of characters that
    are not white space. *)
Theorem parse_fails_iff_empty_buffer (buffer filename : string) :
  match parse TextParser buffer filename with
  | Throw e =>
      buffer = "" /\ e = invalid_argument "Document content cannot be empty"
  | Ok d =>
      buffer <> "" /\ getContent d = buffer /\ getSource d = filename /\
      (size buffer <= Machine.INT_MAX ->
       getWordCount d = run_count isspace buffer)
  end.
Proof.
  cbn [parse TextParser]. unfold Document_new.
  destruct buffer as [|c s]; cbn [empty].
  - split; reflexivity.
  - split; [discriminate|]. cbn [getContent getSource getWordCount
                                 content_ source_ wordCount_].
    split; [reflexivity|]. split; [reflexivity|].
    apply countWords_run_count.
Qed.

Lemma parse_fails_iff_empty_buffer_witness :
  size "two  words" <= Machine.INT_MAX /\
  exists d,
    parse TextParser "two  words" "notes.txt" = Ok d /\
    getContent d = "two  words" /\ getSource d = "notes.txt" /\
    getWordCount d = run_count isspace "two  words".
Proof.
  split; [discriminate|].
  pose proof (parse_fails_iff_empty_buffer "two  words" "notes.txt") as H.
  cbn [parse TextParser] in H. unfold Document_new in H. cbn [empty] in H.
  destruct H as (_ & Hc & Hs & Hw).
  eexists. split; [reflexivity|].
  split; [exact Hc|]. split; [exact Hs|]. apply Hw. discriminate.
Defined.

End DocumentBuilding.

(** ** The C chunker: what every defined result satisfies *)

(** One pass of the boundary search. *)
Lemma find_boundary_one_pass start len :
  c_program.find_boundary start len =
  if 0 <? len then
    match c_program.char_at start len with
    | None => None
    | Some c =>
        if (negb (Ascii.eqb c ".") && negb (Ascii.eqb c "010"))%bool
        then c_program.find_boundary start (len - 1)
        else Some len
    end
  else Some len.
Proof. apply find_boundary_unfold. Qed.

Section CChunkerResults.

Import c_program Props.

Lemma take_drop n s : take n s ++ drop n s = s.
Proof.
  revert n. induction s as [|c s IH]; intros [|n]; cbn; try reflexivity.
  now rewrite IH.
Qed.

Lemma take_length n s :
  String.length (take n s) = Nat.min n (String.length s).
Proof.
  revert n. induction s as [|c s IH]; intros [|n]; cbn; try reflexivity.
  now rewrite IH.
Qed.

Lemma flatten_app l1 l2 : flatten (l1 ++ l2) = flatten l1 ++ flatten l2.
Proof.
  induction l1 as [|c l1 IH]; cbn [app flatten]; [reflexivity|].
  now rewrite IH, append_assoc.
Qed.

Lemma advance_inv s len s' :
  advance s len = Some s' ->
  0 <= len <= size s /\ s' = drop (Z.to_nat len) s.
Proof.
  unfold advance.
  destruct ((0 <=? len) && (len <=? size s))%bool eqn:E; [|discriminate].
  apply andb_true_iff in E. destruct E as [E1 E2].
  apply Z.leb_le in E1, E2. intros H. injection H as <-. auto.
Qed.

(** What the outer loop of [chunk_text] returns when it returns: the
    chunks it was given, then chunks that put end to end are the text still
    to be cut, each with the property [P] that one pass of the loop
    ensures. [bound] limits the length of the text. *)
Lemma c_chunk_loop_result chunk_size capacity bound (P : string -> Prop) :
  bound < Machine.SIZE_MODULUS ->
  (forall s len,
      s <> "" -> size s <= bound ->
      chunk_len s chunk_size = Some len -> 0 <= len <= size s ->
      P (take (Z.to_nat len) s)) ->
  forall n st result,
    Z.to_nat (capacity - chunk_count st) = n ->
    size (start st) <= bound ->
    chunk_loop chunk_size capacity st = Some result ->
    exists produced,
      result = (chunks st ++ produced)%list /\
      flatten produced = start st /\
      Forall P produced.
Proof.
  intros Hbound Hstep. induction n as [|n IH]; intros st result Hn Hsize;
    rewrite c_chunk_loop_unfold;
    destruct (empty (start st)) eqn:Hempty.
  1,3: intros H; injection H as <-; exists [];
       apply empty_true in Hempty; rewrite Hempty, app_nil_r;
       repeat split; constructor.
  - destruct (chunk_len (start st) chunk_size); [|discriminate].
    assert ((chunk_count st <? capacity) = false) as ->
        by (apply Z.ltb_ge; lia).
    discriminate.
  - destruct (chunk_len (start st) chunk_size) as [len|] eqn:Hlen;
      [|discriminate].
    destruct (chunk_count st <? capacity) eqn:Hroom; [|discriminate].
    apply Z.ltb_lt in Hroom.
    destruct (advance (start st) len) as [start'|] eqn:Hadv; [|discriminate].
    apply advance_inv in Hadv. destruct Hadv as [Hrange ->].
    pose proof (size_nonneg (start st)) as H0.
    rewrite strndup_take by lia.
    intros Hloop. apply IH in Hloop; cbn [start chunk_count chunks].
    + destruct Hloop as (produced & -> & Hflat & Hall).
      cbn [start chunks] in *.
      exists (take (Z.to_nat len) (start st) :: produced). split; [|split].
      * now rewrite <- app_assoc.
      * cbn [flatten]. rewrite Hflat. apply take_drop.
      * constructor; [|assumption].
        apply Hstep; try assumption. now apply empty_false.
    + lia.
    + unfold size in *. rewrite drop_length. lia.
Qed.



Lemma find_boundary_range start :
  forall n r,
    find_boundary start (Z.of_nat n) = Some r -> 0 <= r <= Z.of_nat n.
Proof.
  induction n as [|n IH]; intros r H; rewrite find_boundary_one_pass in H.
  - cbn in H. injection H as <-. lia.
  - assert ((0 <? Z.of_nat (S n)) = true) as E by (apply Z.ltb_lt; lia).
    rewrite E in H.
    destruct (char_at start (Z.of_nat (S n))) as [c|]; [|discriminate].
    destruct (negb (Ascii.eqb c ".") && negb (Ascii.eqb c "010"))%bool.
    + replace (Z.of_nat (S n) - 1) with (Z.of_nat n) in H by lia.
      apply IH in H. lia.
    + injection H as <-. lia.
Qed.

Lemma chunk_len_range s chunk_size len :
  0 < chunk_size <= Machine.INT_MAX ->
  s <> "" -> size s <= Machine.INT_MAX ->
  chunk_len s chunk_size = Some len ->
  1 <= len <= chunk_size + 1.
Proof.
  intros Hc Hne Hmax. pose proof (size_positive s Hne) as Hpos.
  unfold chunk_len. rewrite (to_size_t_small chunk_size) by word_lia.
  destruct (size s <? chunk_size) eqn:E.
  - apply Z.ltb_lt in E. rewrite to_int_small by word_lia.
    intros H. injection H as <-. lia.
  - rewrite <- (Z2Nat.id chunk_size) at 1 by lia.
    destruct (find_boundary s (Z.of_nat (Z.to_nat chunk_size))) as [r|] eqn:Hr;
      [|discriminate].
    apply find_boundary_range in Hr. rewrite Z2Nat.id in Hr by lia.
    destruct (r =? 0) eqn:Er; intros H; injection H as <-; [lia|].
    apply Z.eqb_neq in Er. lia.
Qed.

(** With a chunk size greater than zero, no chunk that [chunk_text] returns
    is empty and none has more than [chunk_size + 1] characters: a cut is
    made after at most [chunk_size] characters, or just after the boundary
    found at the latest at index [chunk_size]. *)
Theorem chunk_text_chunk_sizes (text : string) (chunk_size : Z)
        (result : list string) :
  0 < chunk_size <= Machine.INT_MAX ->
  size text <= Machine.INT_MAX ->
  chunk_text text chunk_size = Some result ->
  Forall (fun c => 1 <= size c <= chunk_size + 1) result.
Proof.
  intros Hc Hmax. unfold chunk_text.
  destruct (Machine.to_size_t chunk_size =? 0); [discriminate|].
  intros Hloop.
  eapply (c_chunk_loop_result chunk_size _ Machine.INT_MAX
            (fun c => 1 <= size c <= chunk_size + 1)) in Hloop;
    [| word_lia | | reflexivity | exact Hmax].
  - destruct Hloop as (produced & -> & _ & Hall). exact Hall.
  - intros s len Hne Hs Hlen Hrange.
    pose proof (chunk_len_range s chunk_size len Hc Hne Hs Hlen) as Hl.
    unfold size in *. rewrite take_length. lia.
Qed.

Lemma chunk_text_chunk_sizes_witness :
  (0 < 20 <= Machine.INT_MAX) /\
  size "A short sentence. Another one here. And a third."
  <= Machine.INT_MAX /\
  chunk_text "A short sentence. Another one here. And a third." 20
  = Some ["A short sentence."; " Another one here."; " And a third."] /\
  Forall (fun c => 1 <= size c <= 20 + 1)
         ["A short sentence."; " Another one here."; " And a third."].
Proof.
  split; [split; [reflexivity | discriminate]|].
  split; [discriminate|]. split; [reflexivity|].
  apply (chunk_text_chunk_sizes
           "A short sentence. Another one here. And a third." 20).
  - split; [reflexivity | discriminate].
  - discriminate.
  - reflexivity.
Defined.

(** A text that is shorter than the chunk size read as a [size_t] comes
    back as one chunk. *)
Lemma chunk_text_whole text chunk_size :
  text <> "" -> size text <= Machine.INT_MAX ->
  size text < Machine.to_size_t chunk_size ->
  chunk_text text chunk_size = Some [text].
Proof.
  intros Hne Hmax Hlt.
  pose proof (size_positive text Hne) as Hpos.
  unfold chunk_text.
  assert ((Machine.to_size_t chunk_size =? 0) = false) as ->
      by (apply Z.eqb_neq; lia).
  rewrite (Z.div_small (size text)) by lia.
  change (Machine.to_size_t
            (Machine.to_size_t (Machine.to_int (Machine.size_add 0 1)) * 8) / 8)
    with 1.
  rewrite c_chunk_loop_unfold. cbn [start chunk_count chunks].
  assert (empty text = false) as -> by (now apply empty_false).
  unfold chunk_len.
  assert ((size text <? Machine.to_size_t chunk_size) = true) as ->
      by (apply Z.ltb_lt; lia).
  rewrite to_int_small by word_lia.
  change (0 <? 1) with true. cbv iota.
  rewrite advance_drop by lia. rewrite strndup_take by word_lia.
  unfold size. rewrite Nat2Z.id, take_all, drop_all.
  rewrite c_chunk_loop_unfold. reflexivity.
Qed.

(** A negative chunk size, converted to [size_t] for the comparison with
    [strlen], is larger than the length of any text that [int] can measure:
    [chunk_text] then returns the whole text as one chunk. *)
Theorem chunk_text_negative_size (text : string) (chunk_size : Z) :
  Machine.INT_MIN <= chunk_size < 0 ->
  text <> "" -> size text <= Machine.INT_MAX ->
  chunk_text text chunk_size = Some [text].
Proof.
  intros Hc Hne Hmax. apply chunk_text_whole; try assumption.
  unfold Machine.to_size_t, Machine.SIZE_MODULUS.
  rewrite <- (Z.mod_add _ 1) by discriminate.
  rewrite Z.mod_small; word_lia.
Qed.

Lemma chunk_text_negative_size_witness :
  (Machine.INT_MIN <= -5 < 0) /\ "abcdef" <> "" /\
  size "abcdef" <= Machine.INT_MAX /\
  chunk_text "abcdef" (-5) = Some ["abcdef"].
Proof.
  split; [split; [discriminate | reflexivity]|].
  split; [discriminate|]. split; [discriminate|].
  apply (chunk_text_negative_size "abcdef" (-5)).
  - split; [discriminate | reflexivity].
  - discriminate.
  - discriminate.
Defined.

(** The chunk size 0 makes [chunk_text] divide by zero, for every text; with
    any other chunk size the empty text gives no chunk at all. *)
Theorem chunk_text_zero_size_and_empty_text (chunk_size : Z) :
  Machine.INT_MIN <= chunk_size <= Machine.INT_MAX ->
  (chunk_size = 0 -> forall text, chunk_text text chunk_size = None) /\
  (chunk_size <> 0 -> chunk_text "" chunk_size = Some []).
Proof.
  intros Hc. split.
  - intros -> text. reflexivity.
  - intros Hne. unfold chunk_text.
    assert ((Machine.to_size_t chunk_size =? 0) = false) as ->.
    { apply Z.eqb_neq. unfold Machine.to_size_t, Machine.SIZE_MODULUS.
      destruct (Z.lt_ge_cases chunk_size 0).
      - rewrite <- (Z.mod_add _ 1) by discriminate.
        rewrite Z.mod_small; word_lia.
      - rewrite Z.mod_small; word_lia. }
    rewrite c_chunk_loop_unfold. reflexivity.
Qed.

Lemma chunk_text_zero_size_and_empty_text_witness :
  (Machine.INT_MIN <= 1000 <= Machine.INT_MAX) /\
  chunk_text "" 1000 = Some [].
Proof.
  split; [split; discriminate|].
  apply (chunk_text_zero_size_and_empty_text 1000).
  - split; discriminate.
  - discriminate.
Defined.










End CChunkerResults.

(** ** Word counts of texts put together *)

Section WordCountConcat.

Import Stream knowledge Props.

Lemma scan_append_blank ws a b sp :
  ws sp = true ->
  forall in_word,
    scan ws (a ++ String sp b) in_word
    = (scan ws a in_word + scan ws b false)%nat.
Proof.
  intros Hsp. induction a as [|c a IH]; intros in_word; cbn [append scan].
  - now rewrite Hsp.
  - destruct (ws c); [apply IH|]. destruct in_word; rewrite IH; lia.
Qed.

(** Two texts put together with a space between them have the words of
    both: when the whole has at most [INT_MAX] characters (beyond, the [int]
    counter can overflow), its word count is the sum of the two word counts,
    in the C++ [countWords] and in the scan of the C [document_create]. *)
Theorem word_count_of_two_texts (a b : string) :
  size (a ++ " " ++ b) <= Machine.INT_MAX ->
  countWords (a ++ " " ++ b) = countWords a + countWords b /\
  c_program.count_scan (a ++ " " ++ b) false 0
  = c_program.count_scan a false 0 + c_program.count_scan b false 0.
Proof.
  intros Hmax.
  assert (size a <= Machine.INT_MAX /\ size b <= Machine.INT_MAX)
    as [Ha Hb].
  { rewrite !size_append in Hmax.
    pose proof (size_nonneg a). pose proof (size_nonneg b).
    change (size " ") with 1 in Hmax. lia. }
  rewrite !countWords_of_content, !count_scan_of_content by assumption.
  change (a ++ " " ++ b) with (a ++ String " " b).
  rewrite !scan_append_blank by reflexivity. lia.
Qed.

Lemma word_count_of_two_texts_witness :
  size ("one two" ++ " " ++ "three") <= Machine.INT_MAX /\
  countWords ("one two" ++ " " ++ "three")
  = countWords "one two" + countWords "three" /\
  c_program.count_scan ("one two" ++ " " ++ "three") false 0
  = c_program.count_scan "one two" false 0
    + c_program.count_scan "three" false 0.
Proof.
  split; [discriminate|].
  apply (word_count_of_two_texts "one two" "three"). discriminate.
Defined.

End WordCountConcat.

(** ** The C++ chunker starts a chunk only when it has to *)

Section ChunkerTight.

Import Stream knowledge Props.

Variable self : TextChunker.

Lemma tight_last_grows chunkSize l g s :
  g <> [] -> tight chunkSize (l ++ [g])%list ->
  tight chunkSize (l ++ [(g ++ [s])%list])%list.
Proof.
  intros Hg. induction l as [|g1 l IH]; [trivial|].
  destruct l as [|g2 l]; cbn [app tight] in *.
  - intros [H _]. split; [|trivial]. destruct g; [contradiction | exact H].
  - intros [H1 H2]. split; [assumption | now apply IH].
Qed.

Lemma tight_new_group chunkSize l g g' :
  tight chunkSize (l ++ [g])%list ->
  chunkSize < size (join g) + size (hd "" g') ->
  tight chunkSize ((l ++ [g]) ++ [g'])%list.
Proof.
  intros Ht Hlink. induction l as [|g1 l IH]; [now split|].
  destruct l as [|g2 l]; cbn [app tight] in *.
  - destruct Ht as [H _]. repeat split; assumption.
  - destruct Ht as [H1 H2]. split; [assumption | now apply IH].
Qed.

(** With a chunk size that is not negative, the chunks are the non-empty
    sentences of the text grouped in order, and a chunk is closed only when
    the next sentence fails the test: its length added to the length of the
    chunk exceeds the chunk size. *)
Theorem chunk_closes_only_full_chunks (text : string) :
  0 <= chunkSize_ self <= Machine.INT_MAX ->
  size text < 2 ^ 62 ->
  exists groups,
    chunk self text = map join groups /\
    Forall (fun g => g <> []) groups /\
    List.concat groups = filter nonempty (sentences text) /\
    tight (chunkSize_ self) groups.
Proof.
  intros Hcs Hsize. rewrite chunk_finish.
  pose (Inv := fun done st =>
    exists groups g,
      holds groups g st /\
      Forall (fun g => g <> []) groups /\
      (List.concat groups ++ g)%list = filter nonempty done /\
      ((g = [] /\ groups = []) \/
       (g <> [] /\ tight (chunkSize_ self) (groups ++ [g])%list))).
  assert (Inv (sentences text)
            (fold_left (fun st sentence => chunk_body self sentence st)
                       (sentences text)
                       {| chunks := []; currentChunk := "" |})) as HI.
  { apply (chunk_ind self Inv); [assumption | |].
    - exists [], []. split; [split; reflexivity|].
      split; [constructor|]. split; [reflexivity | now left].
    - intros done st s _ (groups & g & Hst & Hne & Hcat & Ht) Hsum.
      pose proof (filter_suffix_nonempty _ _ _ Hcat) as Hg.
      unfold Inv. rewrite filter_app. cbn [filter]. fold (nonempty s).
      unfold chunk_body. unfold nonempty at 2.
      destruct (empty s) eqn:Es; cbn [negb].
      { exists groups, g. rewrite app_nil_r. auto. }
      rewrite size_add_small by assumption.
      rewrite to_size_t_small by word_lia.
      destruct Hst as [Hch Hcur].
      destruct (empty (currentChunk st)) eqn:Ec.
      + assert (g = []) as -> by
            (rewrite Hcur in Ec; now apply join_empty in Ec).
        destruct Ht as [[_ ->] | [Habs _]]; [|contradiction].
        exists [], [s]. split; [|split; [|split]].
        * pose proof (holds_append [] [] st s (conj Hch Hcur) Hg) as Ha.
          rewrite Ec in Ha. cbn [negb app] in Ha.
          destruct (_ <? _); cbn [negb]; rewrite ?Ec; cbn [negb]; exact Ha.
        * constructor.
        * rewrite <- Hcat. reflexivity.
        * right. split; [discriminate | exact I].
      + assert (g <> []) as Hgne
            by (intros ->; rewrite Hcur in Ec; discriminate).
        destruct Ht as [[Habs _] | [_ Ht]]; [contradiction|].
        destruct (chunkSize_ self <? size (currentChunk st) + size s)
          eqn:Hlt; cbn [negb].
        * apply Z.ltb_lt in Hlt.
          exists (groups ++ [g])%list, [s]. split; [|split; [|split]].
          -- pose proof (holds_flush groups g st (conj Hch Hcur)) as Hf.
             pose proof (holds_append _ _ _ s Hf (Forall_nil _)) as Ha.
             exact Ha.
          -- apply Forall_app. split; [assumption | now constructor].
          -- rewrite concat_app. cbn [List.concat]. rewrite app_nil_r.
             rewrite <- Hcat. reflexivity.
          -- right. split; [discriminate|].
             apply tight_new_group; [assumption|]. cbn [hd].
             now rewrite <- Hcur.
        * exists groups, (g ++ [s])%list. split; [|split; [|split]].
          -- exact (holds_append groups g st s (conj Hch Hcur) Hg).
          -- assumption.
          -- rewrite app_assoc, Hcat. reflexivity.
          -- right. split; [now destruct g|].
             now apply tight_last_grows. }
  destruct HI as (groups & g & [Hch Hcur] & Hne & Hcat & Ht).
  pose proof (filter_suffix_nonempty _ _ _ Hcat) as Hg.
  unfold finish. destruct Ht as [[-> ->] | [Hgne Ht]].
  - rewrite Hcur, Hch. cbn. exists []. repeat split; try constructor.
    now rewrite <- Hcat.
  - rewrite Hcur, join_nonempty by assumption. cbn [negb].
    exists (groups ++ [g])%list. split; [|split; [|split]].
    + now rewrite map_app, Hch.
    + apply Forall_app. split; [assumption | now constructor].
    + rewrite concat_app. cbn [List.concat]. now rewrite app_nil_r.
    + assumption.
Qed.

End ChunkerTight.

Section ChunkerTightInstance.

Import Stream knowledge Props.

Lemma chunk_closes_only_full_chunks_witness :
  (0 <= chunkSize_ {| chunkSize_ := 5 |} <= Machine.INT_MAX) /\
  size "abc.de.fgh." < 2 ^ 62 /\
  exists groups,
    chunk {| chunkSize_ := 5 |} "abc.de.fgh." = map join groups /\
    Forall (fun g => g <> []) groups /\
    List.concat groups = filter nonempty (sentences "abc.de.fgh.") /\
    tight (chunkSize_ {| chunkSize_ := 5 |}) groups.
Proof.
  split; [split; discriminate|]. split; [reflexivity|].
  apply (chunk_closes_only_full_chunks {| chunkSize_ := 5 |} "abc.de.fgh.").
  - split; discriminate.
  - reflexivity.
Defined.

End ChunkerTightInstance.
